(** * cryptography-basics: a shallow embedding of the numeric kernels

    The repository is a set of independent TypeScript scripts.  This file
    embeds the functions that carry arithmetic or data-structure content:

    - [Chapter2]: the XOR cipher and the toy RSA of [chapter-2.ts];
    - [ModularArithmetic]: [modulo] and [modularExponentiation];
    - [DiffieHellman]: [diffieHellmanExchange];
    - [ECDH]: [modularInverse], [addPoints] and [scalarMultiply];
    - [Chapter11]: [generateRSAKeyPair], [encryptRSA], [decryptRSA];
    - [Chapter13]: [yatesShuffle];
    - [ZeroKnowledge]: the prover's and the verifier's functions;
    - [DiscreteLogarithm]: [solveDiscreteLogarithmBruteForce];
    - [Chapter3] and [Chapter4]: [simpleHash], [signMessage], [verifySignature];
    - [MerkleTree]: [buildMerkleTree] and [verifyMerkleProof], over any hash.

    Definitions come first, one module per source file; the theorems follow. *)

From Stdlib Require Import ZArith Znumtheory Zpow_facts Lia Bool List.
From stdpp Require Import base option numbers list.

Local Open Scope Z_scope.

(** ** JavaScript values *)

Module JS.

(** *** Exceptions

    The only exception the embedded functions can raise is the [RangeError]
    of BigInt arithmetic (division by zero, negative exponent, a result
    beyond the maximum BigInt size). *)

Inductive exn : Set :=
  | RangeError.

Inductive result (A : Type) : Type :=
  | Ok (a : A)
  | Throw (e : exn).
Arguments Ok {A} a.
Arguments Throw {A} e.

#[global] Instance result_ret : MRet result := fun A a => Ok a.
#[global] Instance result_bind : MBind result := fun A B f m =>
  match m with
  | Ok a => f a
  | Throw e => Throw e
  end.

(** *** Numbers

    A [number] is an IEEE-754 double.  The scripts only ever hold integers in
    them, so an integer-valued double is represented by the integer it
    denotes, and every arithmetic operator rounds its exact result to the
    nearest double, ties to even: 53 significant bits.  NaN, the infinities
    and fractions have no representation; the places where the source could
    produce one are marked. *)

Definition round53 (z : Z) : Z :=
  let m := Z.abs z in
  if m <=? 2 ^ 53 then z
  else
    let sh := Z.log2 m - 52 in
    let q := Z.shiftr m sh in
    let r := Z.land m (Z.ones sh) in
    let half := 2 ^ (sh - 1) in
    let q' := if (half <? r) || ((r =? half) && Z.odd q) then q + 1 else q in
    Z.sgn z * Z.shiftl q' sh.

(** [a + b], [a - b], [a * b] on numbers. *)
Definition fadd (a b : Z) : Z := round53 (a + b).
Definition fsub (a b : Z) : Z := round53 (a - b).
Definition fmul (a b : Z) : Z := round53 (a * b).

(** [a % b] on numbers: the remainder has the sign of the dividend and is
    exact.  [a % 0] is NaN, which is not represented: the callers below only
    compare it or loop zero times on it. *)
Definition frem (a b : Z) : Z := Z.rem a b.

(** *** BigInt

    A [bigint] is an integer of bounded size.  [BigInt(x)] of an
    integer-valued number is exact; [Number(b)] rounds (beyond the largest
    finite double it would give an infinity). *)

Definition BigInt (x : Z) : Z := x.
Definition Number (b : Z) : Z := round53 b.

(** The engine the scripts run on (V8, under Node) holds a BigInt of at most
    2^30 bits and raises [RangeError: Maximum BigInt size exceeded] for a
    result beyond that. *)
Definition bigint_max_bits : Z := 2 ^ 30.

(** The bit length of [z] is [Z.log2 (Z.abs z) + 1]. *)
Definition bigint_fits (z : Z) : bool := Z.log2 (Z.abs z) <? bigint_max_bits.

(** The engine sizes a product in whole 64-bit digits before it computes it,
    so a result within one digit of the limit may be refused as well.  A
    value is [bigint_safe] when it stays clear of that last digit; the
    statements below that promise a result ask for it. *)
Definition bigint_safe (z : Z) : Prop := Z.log2 (Z.abs z) < bigint_max_bits - 64.

(** [b ** e] throws on a negative exponent and on a power beyond the maximum
    size; [0n ** 0n] is [1n]. *)
Definition bigint_pow (b e : Z) : result Z :=
  if e <? 0 then Throw RangeError
  else
    let pw := b ^ e in
    if bigint_fits pw then Ok pw else Throw RangeError.

(** [a % n] truncates towards zero and throws on a zero divisor. *)
Definition bigint_rem (a n : Z) : result Z :=
  if n =? 0 then Throw RangeError else Ok (Z.rem a n).

(** *** Strings

    A string is a sequence of UTF-16 code units. *)

Definition code_unit (c : Z) : Prop := 0 <= c < 65536.

(** [s.charCodeAt(i)]: [None] stands for the NaN of an out-of-range index. *)
Definition charCodeAt (s : list Z) (i : nat) : option Z := s !! i.

(** [x ^ y] on numbers: both operands go through ToInt32, which maps NaN
    to 0 and leaves code units unchanged. *)
Definition toInt32_of_charCode (c : option Z) : Z := default 0 c.
Definition bitxor (x y : option Z) : Z :=
  Z.lxor (toInt32_of_charCode x) (toInt32_of_charCode y).

(** [String.fromCharCode(n)] keeps the low 16 bits. *)
Definition fromCharCode (n : Z) : Z := n mod 65536.

(** *** Arrays

    Reading past the end gives [undefined]; writing past the end extends the
    array, the gap being filled with [undefined]. *)

Section Arrays.
Context {V : Type} (undefined : V).

Definition array_get (a : list V) (i : nat) : V := default undefined (a !! i).

Definition array_set (a : list V) (i : nat) (v : V) : list V :=
  if decide (i < length a)%nat then <[i := v]> a
  else a ++ replicate (i - length a) undefined ++ [v].

End Arrays.

End JS.

Import JS.

(** ** The specified modular exponentiation

    Follows the spec's words, not the source: "computes base^exponent mod n
    using binary (square-and-multiply) exponentiation", every product being
    reduced at once.  The source's [**] followed by [%] is compared with it
    below. *)

Module Spec.

Fixpoint modPow_bits (base : Z) (exponent : positive) (n : Z) : Z :=
  match exponent with
  | xH => base mod n
  | xO e => modPow_bits ((base * base) mod n) e n
  | xI e => (base * modPow_bits ((base * base) mod n) e n) mod n
  end.

Definition modPow (base exponent n : Z) : Z :=
  match exponent with
  | Zpos e => modPow_bits (base mod n) e n
  | _ => 1 mod n
  end.

(** The modular multiplications [modPow_bits] performs. *)
Fixpoint modPow_mults (exponent : positive) : Z :=
  match exponent with
  | xH => 0
  | xO e => 1 + modPow_mults e
  | xI e => 2 + modPow_mults e
  end.

(** The RSA round trip, checked on every message below [n]. *)
Definition roundtrip_all (e d n : Z) : bool :=
  forallb (fun M => modPow (modPow M e n) d n =? M) (seqZ 0 n).

End Spec.

(** ** chapter-2.ts: symmetric and asymmetric toy keys *)

Module Chapter2.

(** [i % key.length]; with an empty key the index is NaN, which
    [charCodeAt] reads as position 0. *)
Definition key_index (i len : nat) : nat :=
  if decide (len = 0)%nat then 0%nat else (i mod len)%nat.

(** The loop appends one code unit for each [i] from [0] to
    [message.length - 1]. *)
Definition encryptSymmetric (message key : list Z) : list Z :=
  (fun i =>
     let messageChar := charCodeAt message i in
     let keyChar := charCodeAt key (key_index i (length key)) in
     fromCharCode (bitxor messageChar keyChar))
  <$> seq 0 (length message).

Definition decryptSymmetric (ciphertext key : list Z) : list Z :=
  encryptSymmetric ciphertext key.

Module PublicKey.
Record t : Set := make { e : Z; n : Z }.
End PublicKey.

Module PrivateKey.
Record t : Set := make { d : Z; n : Z }.
End PrivateKey.

Definition generateAsymmetricKeyPair : PublicKey.t * PrivateKey.t :=
  let p := 17 in
  let q := 19 in
  let n := fmul p q in
  let phi_n := fmul (fsub p 1) (fsub q 1) in
  let e := 13 in
  let d := 221 in
  let publicKey := PublicKey.make e n in
  let privateKey := PrivateKey.make d n in
  (publicKey, privateKey).

Definition encryptAsymmetric (message : Z) (publicKey : PublicKey.t) : result Z :=
  let msgBigInt := BigInt message in
  let eBigInt := BigInt (PublicKey.e publicKey) in
  let nBigInt := BigInt (PublicKey.n publicKey) in
  pw ← bigint_pow msgBigInt eBigInt;
  r ← bigint_rem pw nBigInt;
  mret (Number r).

Definition decryptAsymmetric (ciphertext : Z) (privateKey : PrivateKey.t) : result Z :=
  let cipherBigInt := BigInt ciphertext in
  let dBigInt := BigInt (PrivateKey.d privateKey) in
  let nBigInt := BigInt (PrivateKey.n privateKey) in
  pw ← bigint_pow cipherBigInt dBigInt;
  r ← bigint_rem pw nBigInt;
  mret (Number r).

End Chapter2.

(** ** Modular arithmetic: [modulo] and [modularExponentiation] *)

Module ModularArithmetic.

Definition modulo (a n : Z) : result Z :=
  let aBigInt := BigInt a in
  let nBigInt := BigInt n in
  r ← bigint_rem aBigInt nBigInt;
  mret (Number r).

(** [baseBigInt ** exponentBigInt % modulusBigInt], then [Number]: [**]
    binds tighter than [%], so the full power is evaluated first. *)
Definition modularExponentiation (base exponent modulus : Z) : result Z :=
  let baseBigInt := BigInt base in
  let exponentBigInt := BigInt exponent in
  let modulusBigInt := BigInt modulus in
  pw ← bigint_pow baseBigInt exponentBigInt;
  result ← bigint_rem pw modulusBigInt;
  mret (Number result).

End ModularArithmetic.

(** ** Diffie-Hellman exchange *)

Module DiffieHellman.

Record exchange : Set := {
  alicePublicKey : Z;
  bobPublicKey : Z;
  sharedSecretAlice : Z;
  sharedSecretBob : Z
}.

Definition pow_rem (b e m : Z) : result Z :=
  pw ← bigint_pow b e; bigint_rem pw m.

Definition diffieHellmanExchange (p g a b : Z) : result exchange :=
  let pBigInt := BigInt p in
  let gBigInt := BigInt g in
  let aBigInt := BigInt a in
  let bBigInt := BigInt b in
  alicePublicKey ← pow_rem gBigInt aBigInt pBigInt;
  bobPublicKey ← pow_rem gBigInt bBigInt pBigInt;
  sharedSecretAlice ← pow_rem bobPublicKey aBigInt pBigInt;
  sharedSecretBob ← pow_rem alicePublicKey bBigInt pBigInt;
  mret {| alicePublicKey := Number alicePublicKey;
          bobPublicKey := Number bobPublicKey;
          sharedSecretAlice := Number sharedSecretAlice;
          sharedSecretBob := Number sharedSecretBob |}.

End DiffieHellman.

(** ** Elliptic-curve Diffie-Hellman over y^2 = x^3 + x + 1 (mod 23) *)

Module ECDH.

(** A point has nullable coordinates; [{x: null, y: null}] is the point at
    infinity. *)
Record Point : Set := { x : option Z; y : option Z }.

Definition p : Z := 23.
Definition a : Z := 1.
Definition b : Z := 1.
Definition G : Point := {| x := Some 1; y := Some 7 |}.
Definition O : Point := {| x := None; y := None |}.

(** A nullable coordinate used as an operand: [null] converts to 0. *)
Definition num (c : option Z) : Z := default 0 c.

(** [for (let x = 1; x < p; x++) if ((n * x) % p === 1) return x; return 0]:
    the first candidate that passes the test, else 0.  For [p <= 1] there is
    no candidate and the normalised [n] (NaN when [p] is 0) is never read.
    The counter [x] is exact as long as [p] does not exceed 2^53. *)
Definition modularInverse (n p : Z) : Z :=
  let n := frem (fadd (frem n p) p) p in
  default 0 (List.find (fun x => frem (fmul n x) p =? 1) (seqZ 1 (p - 1))).

Definition addPoints (P Q : Point) : Point :=
  match x P, x Q with
  | None, _ => Q
  | _, None => P
  | Some Px, Some Qx =>
    let slope :=
      if decide (x P = x Q /\ y P = y Q) then
        let numerator := fadd (fmul (fmul 3 Px) Px) a in
        let denominator := fmul 2 (num (y P)) in
        frem (fmul numerator (modularInverse denominator p)) p
      else
        let numerator := fsub (num (y Q)) (num (y P)) in
        let denominator := fsub Qx Px in
        frem (fmul numerator (modularInverse denominator p)) p in
    let xR := frem (fsub (fsub (fmul slope slope) Px) Qx) p in
    let yR := frem (fsub (fmul slope (fsub Px xR)) (num (y P))) p in
    let finalX := frem (fadd (frem xR p) p) p in
    let finalY := frem (fadd (frem yR p) p) p in
    {| x := Some finalX; y := Some finalY |}
  end.

(** The source has no membership test.  This predicate states the equation
    of the script's header comment, y^2 = x^3 + ax + b (mod p), for a finite
    point with coordinates in [0, p). *)
Definition on_curve (P : Point) : Prop :=
  match x P, y P with
  | Some Px, Some Py =>
    0 <= Px < p /\ 0 <= Py < p /\ (Py * Py) mod p = (Px * Px * Px + a * Px + b) mod p
  | _, _ => False
  end.

#[global] Instance Point_eq_dec : EqDecision Point.
Proof. solve_decision. Defined.

(** [while (k > 0) { if (k % 2 === 1) result = ...; addend = ...;
    k = Math.floor(k / 2) }].  [k] shrinks at every turn, so [fuel], which
    [scalarMultiply] sets to [k], is never used up before [k] reaches 0. *)
Fixpoint scalarMultiply_loop (fuel : nat) (k : Z) (result addend : Point) : Point :=
  match fuel with
  | 0%nat => result
  | S fuel' =>
    if 0 <? k then
      let result := if frem k 2 =? 1 then addPoints result addend else result in
      let addend := addPoints addend addend in
      scalarMultiply_loop fuel' (k / 2) result addend
    else result
  end.

Definition scalarMultiply (k : Z) (P : Point) : Point :=
  scalarMultiply_loop (Z.to_nat k) k O P.

(** [on_curve], as a test. *)
Definition on_curveb (P : Point) : bool :=
  match x P, y P with
  | Some Px, Some Py =>
    (0 <=? Px) && (Px <? p) && (0 <=? Py) && (Py <? p) &&
    ((Py * Py) mod p =? (Px * Px * Px + a * Px + b) mod p)
  | _, _ => false
  end.

(** The finite points of the curve: 27 of them. *)
Definition curve_points : list Point :=
  filter (fun P => Is_true (on_curveb P))
         (Px ← seqZ 0 p; Py ← seqZ 0 p; [{| x := Some Px; y := Some Py |}]).

(** Two finite points on a vertical line: each is the other's opposite (a
    point with ordinate 0 is its own). *)
Definition vertical (P Q : Point) : Prop :=
  x P = x Q /\ (num (y P) + num (y Q)) mod p = 0.

#[global] Instance vertical_dec (P Q : Point) : Decision (vertical P Q).
Proof. unfold vertical. apply _. Defined.

End ECDH.

(** ** chapter-11.ts: simplified RSA *)

Module Chapter11.

Module PublicKey.
Record t : Set := make { e : Z; n : Z }.
End PublicKey.

Module PrivateKey.
Record t : Set := make { d : Z; n : Z }.
End PrivateKey.

Record KeyPair : Set := { publicKey : PublicKey.t; privateKey : PrivateKey.t }.

Definition generateRSAKeyPair (p q : Z) : KeyPair :=
  let n := fmul p q in
  let phi_n := fmul (fsub p 1) (fsub q 1) in
  let e := 17 in
  let d := 2753 in
  {| publicKey := PublicKey.make e n; privateKey := PrivateKey.make d n |}.

Definition encryptRSA (message : Z) (publicKey : PublicKey.t) : result Z :=
  let msgBigInt := BigInt message in
  let eBigInt := BigInt (PublicKey.e publicKey) in
  let nBigInt := BigInt (PublicKey.n publicKey) in
  pw ← bigint_pow msgBigInt eBigInt;
  r ← bigint_rem pw nBigInt;
  mret (Number r).

Definition decryptRSA (ciphertext : Z) (privateKey : PrivateKey.t) : result Z :=
  let cipherBigInt := BigInt ciphertext in
  let dBigInt := BigInt (PrivateKey.d privateKey) in
  let nBigInt := BigInt (PrivateKey.n privateKey) in
  pw ← bigint_pow cipherBigInt dBigInt;
  r ← bigint_rem pw nBigInt;
  mret (Number r).

(** The script's own parameters. *)
Definition p : Z := 61.
Definition q : Z := 53.

End Chapter11.

(** ** chapter-13.ts: the Yates shuffle *)

Module Chapter13.

Section Shuffle.
Context {T : Type} (undefined : T).

(** [randomInt max] is the value [crypto.randomInt(max)] returns in the run
    under consideration; the loop calls it once for each [max]. *)
Variable randomInt : nat -> nat.

(** [[array[i], array[j]] = [array[j], array[i]]]: both reads, then the
    write to [i], then the write to [j]. *)
Definition swap (array : list T) (i j : nat) : list T :=
  let aj := array_get undefined array j in
  let ai := array_get undefined array i in
  array_set undefined (array_set undefined array i aj) j ai.

(** The body run for the counter [i], [i - 1], ..., [1]. *)
Fixpoint shuffle_from (i : nat) (array : list T) : list T :=
  match i with
  | O => array
  | S i' =>
    let j := randomInt (i + 1) in
    shuffle_from i' (swap array i j)
  end.

(** The counter starts at [array.length - 1]; for an empty array that is
    [-1] and the loop does not run, as with the truncated subtraction. *)
Definition yatesShuffle (array : list T) : list T :=
  shuffle_from (length array - 1) array.

End Shuffle.

End Chapter13.

(** ** The zero-knowledge toy protocol *)

Module ZeroKnowledge.

Definition SECRET_X : Z := 7.
Definition N : Z := fmul SECRET_X SECRET_X.

Record commitment : Set := { v : Z; h : Z }.

(** [randomInt max] is what [crypto.randomInt(max)] returns in the run under
    consideration; the protocol calls it once with 100 and once with 2. *)
Definition proverCommit (randomInt : Z -> Z) : commitment :=
  let v := randomInt 100 in
  let h := fmul v v in
  {| v := v; h := h |}.

Definition proverResponse (challenge v : Z) : Z :=
  if challenge =? 0 then v else fmul v SECRET_X.

Definition verifierChallenge (randomInt : Z -> Z) : Z := randomInt 2.

Definition verifierVerify (h challenge r : Z) : bool :=
  if challenge =? 0 then
    let verificationValue := fmul r r in
    verificationValue =? h
  else
    let verificationValue := fmul r r in
    verificationValue =? fmul h N.

(** The script's run: commit, challenge, respond, verify. *)
Definition protocol (randomInt : Z -> Z) : bool :=
  let prover := proverCommit randomInt in
  let verifier := verifierChallenge randomInt in
  let response := proverResponse verifier (v prover) in
  verifierVerify (h prover) verifier response.

End ZeroKnowledge.

(** ** The brute-force discrete logarithm *)

Module DiscreteLogarithm.

(** [for (let x = 1; x < p; x++)]: the candidates in order; [null] is
    [None].  The counter is exact as long as [p] does not exceed 2^53. *)
Fixpoint solve_loop (candidates : list Z) (gBigInt yBigInt pBigInt : Z) : result (option Z) :=
  match candidates with
  | [] => Ok None
  | x :: rest =>
    let xBigInt := BigInt x in
    pw ← bigint_pow gBigInt xBigInt;
    result ← bigint_rem pw pBigInt;
    if result =? yBigInt then Ok (Some x)
    else solve_loop rest gBigInt yBigInt pBigInt
  end.

(** The test the loop applies to a candidate, as a function. *)
Definition dlog_test (g y p x : Z) : bool := Z.rem (g ^ x) p =? y.

Definition solveDiscreteLogarithmBruteForce (g y p : Z) : result (option Z) :=
  let gBigInt := BigInt g in
  let yBigInt := BigInt y in
  let pBigInt := BigInt p in
  solve_loop (seqZ 1 (p - 1)) gBigInt yBigInt pBigInt.

End DiscreteLogarithm.

(** ** chapter-3.ts: the simple hash *)

Module Chapter3.

(** [x | 0]: the signed 32-bit integer congruent to [x]. *)
Definition toInt32 (x : Z) : Z := (x + 2 ^ 31) mod 2 ^ 32 - 2 ^ 31.

(** [x >>> 0]: the unsigned 32-bit integer congruent to [x]. *)
Definition toUint32 (x : Z) : Z := x mod 2 ^ 32.

(** The loop reads [input.charCodeAt(i)] for [i] from 0 to
    [input.length - 1]: the code units in order. *)
Definition simpleHash (input : list Z) : Z :=
  let prime := 31 in
  let hash :=
    fold_left (fun hash charCode => toInt32 (fadd (fmul hash prime) charCode)) input 0 in
  toUint32 hash.

(** The accumulator of the loop, started from [hash]. *)
Definition hash_acc (input : list Z) (hash : Z) : Z :=
  fold_left (fun hash charCode => toInt32 (fadd (fmul hash 31) charCode)) input hash.

(** The value at 31 of the polynomial whose coefficients are the code units
    of [input], the first one leading: what the loop computes when nothing
    wraps around. *)
Fixpoint hash_poly (input : list Z) : Z :=
  match input with
  | [] => 0
  | charCode :: rest => charCode * 31 ^ Z.of_nat (length rest) + hash_poly rest
  end.

End Chapter3.

(** ** chapter-4.ts: signatures *)

Module Chapter4.
Import Chapter2 Chapter3.

Definition signMessage (message : list Z) (privateKey : PrivateKey.t) : result Z :=
  let messageHash := simpleHash message in
  let hashBigInt := BigInt messageHash in
  let dBigInt := BigInt (PrivateKey.d privateKey) in
  let nBigInt := BigInt (PrivateKey.n privateKey) in
  pw ← bigint_pow hashBigInt dBigInt;
  r ← bigint_rem pw nBigInt;
  let signature := Number r in
  mret signature.

Definition verifySignature (message : list Z) (signature : Z) (publicKey : PublicKey.t)
  : result bool :=
  let signatureBigInt := BigInt signature in
  let eBigInt := BigInt (PublicKey.e publicKey) in
  let nBigInt := BigInt (PublicKey.n publicKey) in
  pw ← bigint_pow signatureBigInt eBigInt;
  r ← bigint_rem pw nBigInt;
  let decryptedHash := Number r in
  let newMessageHash := simpleHash message in
  mret (decryptedHash =? newMessageHash).

End Chapter4.

(** ** chapter-11.ts: Merkle trees *)

Module MerkleTree.

Section WithHash.

(** [sha256] is Node's SHA-256 of a string, in hexadecimal: a function from
    strings to strings, of which nothing else is used. *)
Variable sha256 : list Z -> list Z.

(** The text of [undefined], which [+] appends for a missing element. *)
Definition undefined_text : list Z := [117; 110; 100; 101; 102; 105; 110; 101; 100].

(** [if (currentLevel.length % 2 !== 0)
      currentLevel.push(currentLevel[currentLevel.length - 1])]. *)
Definition duplicate_last (currentLevel : list (list Z)) : list (list Z) :=
  if Nat.eqb (length currentLevel mod 2) 0 then currentLevel
  else currentLevel ++ [default undefined_text (last currentLevel)].

(** [for (let i = 0; i < currentLevel.length; i += 2)
      nextLevel.push(sha256(currentLevel[i] + currentLevel[i + 1]))]. *)
Fixpoint hash_pairs (currentLevel : list (list Z)) : list (list Z) :=
  match currentLevel with
  | [] => []
  | [lhs] => [sha256 (lhs ++ undefined_text)]
  | lhs :: rhs :: rest => sha256 (lhs ++ rhs) :: hash_pairs rest
  end.

(** The [while (currentLevel.length > 1)] loop.  [tree] holds the levels
    pushed before [currentLevel]; [currentLevel] itself is the array that is
    last in the source's [tree], so the element it gains from
    [duplicate_last] shows in the tree as well.  A level of two or more
    nodes is followed by a shorter one: [fuel], set to the number of leaves,
    is never used up. *)
Fixpoint build_loop (fuel : nat) (tree : list (list (list Z))) (currentLevel : list (list Z))
  : list (list (list Z)) * list (list Z) :=
  match fuel with
  | 0%nat => (tree ++ [currentLevel], currentLevel)
  | S fuel' =>
    if (1 <? length currentLevel)%nat then
      let currentLevel := duplicate_last currentLevel in
      let nextLevel := hash_pairs currentLevel in
      build_loop fuel' (tree ++ [currentLevel]) nextLevel
    else (tree ++ [currentLevel], currentLevel)
  end.

Record merkle : Set := { tree : list (list (list Z)); root : list Z }.

Definition buildMerkleTree (dataBlocks : list (list Z)) : merkle :=
  if (length dataBlocks =? 0)%nat then {| tree := []; root := [] |}
  else
    let currentLevel := sha256 <$> dataBlocks in
    let '(tree, currentLevel) := build_loop (length currentLevel) [] currentLevel in
    {| tree := tree; root := default undefined_text (currentLevel !! 0%nat) |}.

(** The loop of [verifyMerkleProof] over the hashes of [proof]. *)
Fixpoint verify_loop (proof : list (list Z)) (currentHash : list Z) (index : Z) : list Z :=
  match proof with
  | [] => currentHash
  | proofHash :: rest =>
    let currentHash :=
      if frem index 2 =? 0 then sha256 (currentHash ++ proofHash)
      else sha256 (proofHash ++ currentHash) in
    verify_loop rest currentHash (index / 2)
  end.

Definition verifyMerkleProof (dataBlock rootHash : list Z) (proof : list (list Z)) (index : Z)
  : bool :=
  let currentHash := sha256 dataBlock in
  bool_decide (verify_loop proof currentHash index = rootHash).

(** The proof the script assembles by hand for the index 1,
    [[sha256(transactions[0]), tree[1][1]]], for any index: at each level
    below the root, the node next to the one on the path. *)
Fixpoint merkleProof (tree : list (list (list Z))) (index : nat) : list (list Z) :=
  match tree with
  | [] => []
  | [_] => []
  | level :: upper =>
    let sibling := if Nat.even index then S index else pred index in
    default undefined_text (level !! sibling) :: merkleProof upper (index / 2)
  end.

End WithHash.

End MerkleTree.

(** * Theorems *)

(** ** Numbers *)

Lemma round53_exact (z : Z) : Z.abs z <= 2 ^ 53 -> round53 z = z.
Proof.
  intros Hz. unfold round53. cbv zeta.
  destruct (Z.leb_spec (Z.abs z) (2 ^ 53)) as [_ | Hgt]; [reflexivity | lia].
Qed.

Lemma Number_exact (z : Z) : 0 <= z <= 2 ^ 53 -> Number z = z.
Proof. intros Hz. apply round53_exact. lia. Qed.

Lemma rem_is_mod (a n : Z) : 0 <= a -> 0 < n -> Z.rem a n = a mod n.
Proof. intros. now apply Z.rem_mod_nonneg. Qed.

(** The truncated remainder is congruent to its dividend. *)
Lemma rem_plus_mod (a n : Z) : 0 < n -> (Z.rem a n + n) mod n = a mod n.
Proof.
  intros Hn.
  pose proof (Z.quot_rem' a n) as Hqr.
  replace (Z.rem a n + n) with (a + (1 - Z.quot a n) * n) by lia.
  apply Z_mod_plus_full.
Qed.

Lemma rem_bounds (a n : Z) : 0 < n -> - n < Z.rem a n < n.
Proof.
  intros Hn. pose proof (Z.rem_bound_abs a n ltac:(lia)). lia.
Qed.

(** ** BigInt power and remainder *)

Lemma bigint_safe_fits (z : Z) : bigint_safe z -> bigint_fits z = true.
Proof.
  unfold bigint_safe, bigint_fits. intros Hz. apply Z.ltb_lt. lia.
Qed.

Lemma bigint_safe_le (x y : Z) : Z.abs x <= Z.abs y -> bigint_safe y -> bigint_safe x.
Proof.
  unfold bigint_safe. intros Hle Hy.
  pose proof (Z.log2_le_mono (Z.abs x) (Z.abs y) Hle). lia.
Qed.

Lemma bigint_safe_small (z : Z) : Z.abs z <= 1 -> bigint_safe z.
Proof.
  intros Hz. apply (bigint_safe_le z 1); [exact Hz |].
  unfold bigint_safe, bigint_max_bits. change (Z.log2 (Z.abs 1)) with 0. lia.
Qed.

(** A power is no larger than the same power of a larger base to a larger
    exponent. *)
Lemma pow_abs_le (b c e f : Z) :
  Z.abs b <= Z.abs c -> 1 <= Z.abs c -> 0 <= e <= f -> Z.abs (b ^ e) <= Z.abs (c ^ f).
Proof.
  intros Hbc Hc Hef. rewrite !Z.abs_pow.
  transitivity (Z.abs c ^ e).
  - apply Z.pow_le_mono_l. lia.
  - apply Z.pow_le_mono_r; lia.
Qed.

Lemma bigint_safe_pow_le (b c e f : Z) :
  Z.abs b <= Z.abs c -> 0 <= e <= f -> bigint_safe (c ^ f) -> bigint_safe (b ^ e).
Proof.
  intros Hbc Hef Hsafe. destruct (Z_le_gt_dec 1 (Z.abs c)) as [Hc | Hc].
  - apply (bigint_safe_le _ (c ^ f)); [now apply pow_abs_le | exact Hsafe].
  - apply bigint_safe_small. assert (b = 0) as -> by lia.
    destruct (Z.eq_dec e 0) as [-> | He]; [reflexivity |].
    rewrite Z.pow_0_l by lia. cbn. lia.
Qed.

(** The bit length of a power is at most the exponent times the bit length of
    the base. *)
Lemma log2_pow_bound (b e : Z) :
  0 <= e -> Z.log2 (Z.abs (b ^ e)) <= e * (Z.log2 (Z.abs b) + 1).
Proof.
  intros He. rewrite Z.abs_pow.
  pose proof (Z.log2_nonneg (Z.abs b)) as Hl.
  destruct (Z.eq_dec e 0) as [-> | Hne]; [reflexivity |].
  destruct (Z.eq_dec (Z.abs b) 0) as [-> | Hb].
  - rewrite Z.pow_0_l by lia. cbn. nia.
  - assert (Hlt : Z.abs b ^ e < 2 ^ (e * (Z.log2 (Z.abs b) + 1))).
    { rewrite Z.mul_comm, Z.pow_mul_r by lia.
      apply Z.pow_lt_mono_l; [lia |]. split; [lia |].
      apply Z.log2_spec. lia. }
    apply Z.log2_lt_pow2 in Hlt; [lia |].
    apply Z.pow_pos_nonneg; lia.
Qed.

Lemma bigint_safe_pow_bound (b e : Z) :
  0 <= e -> e * (Z.log2 (Z.abs b) + 1) < bigint_max_bits - 64 -> bigint_safe (b ^ e).
Proof.
  intros He Hbound. unfold bigint_safe. pose proof (log2_pow_bound b e He). lia.
Qed.

Lemma bigint_pow_safe (b e : Z) :
  0 <= e -> bigint_safe (b ^ e) -> bigint_pow b e = Ok (b ^ e).
Proof.
  intros He Hsafe. unfold bigint_pow.
  destruct (Z.ltb_spec e 0) as [Hlt | _]; [lia |].
  cbv zeta. now rewrite bigint_safe_fits.
Qed.

Lemma bigint_pow_negative (b e : Z) : e < 0 -> bigint_pow b e = Throw RangeError.
Proof.
  intros He. unfold bigint_pow. destruct (Z.ltb_spec e 0); [reflexivity | lia].
Qed.

(** A base of 2 or more, in absolute value, to an exponent of 2^30 or more is
    beyond the maximum size. *)
Lemma bigint_pow_too_big (b e : Z) :
  2 <= Z.abs b -> 2 ^ 30 <= e -> bigint_pow b e = Throw RangeError.
Proof.
  intros Hb He. unfold bigint_pow.
  destruct (Z.ltb_spec e 0) as [_ | _]; [reflexivity |].
  cbv zeta. unfold bigint_fits, bigint_max_bits.
  destruct (Z.ltb_spec (Z.log2 (Z.abs (b ^ e))) (2 ^ 30)) as [Hlt | _]; [| reflexivity].
  exfalso. rewrite Z.abs_pow in Hlt.
  assert (Hle : 2 ^ e <= Z.abs b ^ e) by (apply Z.pow_le_mono_l; lia).
  apply Z.log2_le_mono in Hle. rewrite Z.log2_pow2 in Hle by lia. lia.
Qed.

(** Whatever [**] returns is the power, to a non-negative exponent. *)
Lemma bigint_pow_ok (b e pw : Z) : bigint_pow b e = Ok pw -> 0 <= e /\ pw = b ^ e.
Proof.
  unfold bigint_pow. destruct (Z.ltb_spec e 0) as [_ | He]; [discriminate |].
  cbv zeta. destruct (bigint_fits (b ^ e)); [| discriminate].
  intros [= <-]. now split.
Qed.

Lemma pow_rem_value (b e n : Z) :
  0 <= e -> n <> 0 -> bigint_safe (b ^ e) ->
  (pw ← bigint_pow b e; r ← bigint_rem pw n; mret (Number r)) = Ok (Number (Z.rem (b ^ e) n)).
Proof.
  intros He Hn Hsafe. rewrite bigint_pow_safe by assumption. unfold bigint_rem. cbn.
  destruct (Z.eqb_spec n 0) as [-> | _]; [congruence | reflexivity].
Qed.

Lemma pow_rem_nonneg (b e n : Z) :
  0 <= b -> 0 <= e -> 0 < n <= 2 ^ 53 -> bigint_safe (b ^ e) ->
  (pw ← bigint_pow b e; r ← bigint_rem pw n; mret (Number r)) = Ok (b ^ e mod n).
Proof.
  intros Hb He Hn Hsafe. rewrite pow_rem_value by (try assumption; lia).
  rewrite rem_is_mod by (try apply Z.pow_nonneg; lia).
  pose proof (Z.mod_pos_bound (b ^ e) n ltac:(lia)).
  rewrite Number_exact by lia. reflexivity.
Qed.

(** ** Square-and-multiply computes the same residue *)

Lemma modPow_bits_spec (e : positive) :
  forall b n, 0 < n -> Spec.modPow_bits b e n = b ^ Zpos e mod n.
Proof.
  induction e as [e IH | e IH |]; intros b n Hn; cbn [Spec.modPow_bits].
  - rewrite IH by assumption. rewrite Z.mod_pow_l.
    rewrite Zmult_mod_idemp_r.
    f_equal. rewrite Pos2Z.inj_xI, Z.pow_add_r, Z.pow_1_r by lia.
    rewrite Z.pow_mul_r, Z.pow_2_r by lia. ring.
  - rewrite IH by assumption. rewrite Z.mod_pow_l.
    f_equal. rewrite Pos2Z.inj_xO, Z.pow_mul_r, Z.pow_2_r by lia. reflexivity.
  - now rewrite Z.pow_1_r.
Qed.

Lemma modPow_spec (b e n : Z) : 0 <= e -> 0 < n -> Spec.modPow b e n = b ^ e mod n.
Proof.
  intros He Hn. destruct e as [| e | e]; cbn [Spec.modPow]; [reflexivity | | lia].
  rewrite modPow_bits_spec by assumption. apply Z.mod_pow_l.
Qed.

Lemma modPow_mults_log (e : positive) : Spec.modPow_mults e <= 2 * Z.log2 (Zpos e).
Proof.
  induction e as [e IH | e IH |]; cbn [Spec.modPow_mults].
  - replace (Z.pos e~1) with (2 * Z.pos e + 1) by lia.
    rewrite Z.log2_succ_double by lia. lia.
  - replace (Z.pos e~0) with (2 * Z.pos e) by lia.
    rewrite Z.log2_double by lia. lia.
  - reflexivity.
Qed.

(** ** [modulo] *)

Section Modulo.
Import ModularArithmetic.

Lemma modulo_value (a n : Z) : n <> 0 -> modulo a n = Ok (Number (Z.rem a n)).
Proof.
  intros Hn. unfold modulo, bigint_rem, BigInt.
  destruct (Z.eqb_spec n 0) as [-> | _]; [congruence | reflexivity].
Qed.

Lemma modulo_zero_modulus (a : Z) : modulo a 0 = Throw RangeError.
Proof. reflexivity. Qed.

(** For a negative dividend the result is the truncated remainder: never
    positive. *)
Lemma modulo_negative_dividend (a n : Z) :
  a < 0 -> 0 < n <= 2 ^ 53 ->
  modulo a n = Ok (Z.rem a n) /\ - n < Z.rem a n <= 0.
Proof.
  intros Ha Hn. pose proof (rem_bounds a n ltac:(lia)) as Hb.
  pose proof (Z.rem_nonpos a n ltac:(lia) ltac:(lia)) as Hs.
  rewrite modulo_value by lia. unfold Number; rewrite round53_exact by lia. split; [reflexivity | lia].
Qed.

(** A negative modulus is not rejected. *)
Example modulo_negative_modulus : modulo 7 (-5) = Ok 2.
Proof. reflexivity. Qed.

(** Above 2^53 the residue is rounded by [Number]. *)
Example modulo_rounds :
  modulo (3 ^ 34) (2 ^ 54) = Ok 16677181699666568 /\ 3 ^ 34 mod 2 ^ 54 = 16677181699666569.
Proof. split; vm_compute; reflexivity. Qed.

(** C6, as stated, fails: [modulo(-1, 5)] is [-1], a negative remainder for
    the positive modulus 5. *)
Lemma modulo_negative_remainder :
  0 < 5 /\ modulo (-1) 5 = Ok (-1) /\ ~ (0 <= -1 < 5).
Proof. split; [lia | split; [reflexivity | lia]]. Qed.

(** C6, amended: for a dividend [a >= 0] and a modulus [0 <= n <= 2^53],
    [modulo a n] throws exactly when [n] is 0, and otherwise returns
    [a mod n], which lies in [0, n). *)
Theorem modulo_contract (a n : Z) :
  0 <= a -> 0 <= n <= 2 ^ 53 ->
  match modulo a n with
  | Ok r => 0 < n /\ r = a mod n /\ 0 <= r < n
  | Throw _ => n = 0
  end.
Proof.
  intros Ha Hn. destruct (Z.eq_dec n 0) as [-> | Hnz]; [reflexivity |].
  rewrite modulo_value by assumption.
  rewrite rem_is_mod by lia.
  pose proof (Z.mod_pos_bound a n ltac:(lia)) as Hb.
  rewrite Number_exact by lia. lia.
Qed.

Lemma modulo_contract_witness :
  match modulo 17 5 with
  | Ok r => 0 < 5 /\ r = 17 mod 5 /\ 0 <= r < 5
  | Throw _ => 5 = 0
  end.
Proof. apply (modulo_contract 17 5); lia. Defined.

End Modulo.

(** ** [modularExponentiation] *)

Section ModularExponentiation.
Import ModularArithmetic.

Lemma modularExponentiation_value (base exponent n : Z) :
  modularExponentiation base exponent n
  = (pw ← bigint_pow base exponent; r ← bigint_rem pw n; mret (Number r)).
Proof. reflexivity. Qed.

Lemma modularExponentiation_nonneg (base exponent n : Z) :
  0 <= base -> 0 <= exponent -> 0 < n <= 2 ^ 53 -> bigint_safe (base ^ exponent) ->
  modularExponentiation base exponent n = Ok (base ^ exponent mod n).
Proof.
  intros. rewrite modularExponentiation_value. now apply pow_rem_nonneg.
Qed.

(** A negative exponent raises [RangeError]. *)
Lemma modularExponentiation_negative_exponent (base exponent n : Z) :
  exponent < 0 -> modularExponentiation base exponent n = Throw RangeError.
Proof.
  intros He. rewrite modularExponentiation_value.
  now rewrite bigint_pow_negative.
Qed.

(** So does a power beyond the maximum BigInt size, however small the
    modulus. *)
Lemma modularExponentiation_too_big (base exponent n : Z) :
  2 <= Z.abs base -> 2 ^ 30 <= exponent ->
  modularExponentiation base exponent n = Throw RangeError.
Proof.
  intros Hb He. rewrite modularExponentiation_value.
  now rewrite bigint_pow_too_big.
Qed.

Example modPow_5_6_23 : modularExponentiation 5 6 23 = Ok 8.
Proof. reflexivity. Qed.

Example modPow_0_0_23 : modularExponentiation 0 0 23 = Ok 1.
Proof. reflexivity. Qed.

Example modPow_7_1_1 : modularExponentiation 7 1 1 = Ok 0.
Proof. reflexivity. Qed.

(** [2 ** 2^30] has 2^30 + 1 bits: the call throws, although the residue
    modulo 5 is 1. *)
Example modularExponentiation_beyond_size :
  modularExponentiation 2 (2 ^ 30) 5 = Throw RangeError /\ 2 ^ (2 ^ 30) mod 5 = 1.
Proof.
  split.
  - apply modularExponentiation_too_big; [cbn |]; lia.
  - rewrite <- modPow_spec; [| apply Z.pow_nonneg |]; try lia.
    vm_compute. reflexivity.
Qed.

(** C4, as stated, fails for a modulus above 2^53: the residue of
    [3 ** 34] modulo [2^54] is the odd number 16677181699666569, which
    [Number] rounds to the double 16677181699666568. *)
Lemma modularExponentiation_rounds :
  0 <= 3 /\ 0 <= 34 /\ 0 < 2 ^ 54 /\
  3 ^ 34 mod 2 ^ 54 = 16677181699666569 /\
  modularExponentiation 3 34 (2 ^ 54) = Ok 16677181699666568.
Proof. repeat split; try lia; vm_compute; congruence. Qed.

(** C4, amended: for [base >= 0], [exponent >= 0], a modulus
    [0 < n <= 2^53] and a power [base ^ exponent] that stays clear of the
    maximum BigInt size, [modularExponentiation] returns
    [base ^ exponent mod n], which lies in [0, n); it is [1 mod n] for the
    exponent 0, whatever the base, and 0 for the base 0 and a positive
    exponent. *)
Theorem modularExponentiation_contract (base exponent n : Z) :
  0 <= base -> 0 <= exponent -> 0 < n <= 2 ^ 53 -> bigint_safe (base ^ exponent) ->
  exists r,
    modularExponentiation base exponent n = Ok r /\
    r = base ^ exponent mod n /\
    0 <= r < n /\
    (exponent = 0 -> r = 1 mod n) /\
    (base = 0 -> 0 < exponent -> r = 0).
Proof.
  intros Hb He Hn Hsafe. exists (base ^ exponent mod n).
  split; [now apply modularExponentiation_nonneg |].
  split; [reflexivity |].
  split; [apply Z.mod_pos_bound; lia |].
  split.
  - intros ->. now rewrite Z.pow_0_r.
  - intros -> Hpos. rewrite Z.pow_0_l by assumption. apply Zmod_0_l.
Qed.

Lemma modularExponentiation_contract_witness :
  (exists r, modularExponentiation 5 6 23 = Ok r /\ r = 5 ^ 6 mod 23 /\ 0 <= r < 23 /\
             (6 = 0 -> r = 1 mod 23) /\ (5 = 0 -> 0 < 6 -> r = 0)) /\
  (exists r, modularExponentiation 0 0 23 = Ok r /\ r = 0 ^ 0 mod 23 /\ 0 <= r < 23 /\
             (0 = 0 -> r = 1 mod 23) /\ (0 = 0 -> 0 < 0 -> r = 0)) /\
  (exists r, modularExponentiation 7 1 1 = Ok r /\ r = 7 ^ 1 mod 1 /\ 0 <= r < 1 /\
             (1 = 0 -> r = 1 mod 1) /\ (7 = 0 -> 0 < 1 -> r = 0)).
Proof.
  split; [| split].
  - apply (modularExponentiation_contract 5 6 23); try lia. vm_compute. reflexivity.
  - apply (modularExponentiation_contract 0 0 23); try lia. vm_compute. reflexivity.
  - apply (modularExponentiation_contract 7 1 1); try lia. vm_compute. reflexivity.
Defined.




End ModularExponentiation.

(** ** Diffie-Hellman *)

Section DiffieHellmanExchange.
Import DiffieHellman.

(** C5: with [p = 23], [g = 5], [a = 6], [b = 15] the exchange yields the
    public keys [5^6 mod 23 = 8] and [5^15 mod 23 = 19] and the same shared
    secret 2 on both sides. *)
Theorem diffieHellman_agreement :
  diffieHellmanExchange 23 5 6 15
  = Ok {| alicePublicKey := 8; bobPublicKey := 19;
          sharedSecretAlice := 2; sharedSecretBob := 2 |} /\
  5 ^ 6 mod 23 = 8 /\ 5 ^ 15 mod 23 = 19 /\
  19 ^ 6 mod 23 = 2 /\ 8 ^ 15 mod 23 = 2.
Proof. repeat split; vm_compute; reflexivity. Qed.

(** [b ** e % m] on BigInts. *)
Lemma pow_rem_safe (b e m : Z) :
  0 <= e -> m <> 0 -> bigint_safe (b ^ e) -> pow_rem b e m = Ok (Z.rem (b ^ e) m).
Proof.
  intros He Hm Hsafe. unfold pow_rem. rewrite bigint_pow_safe by assumption.
  unfold bigint_rem. cbn. destruct (Z.eqb_spec m 0); [contradiction | reflexivity].
Qed.

Lemma pow_rem_throws (b e m : Z) : e < 0 \/ m = 0 -> pow_rem b e m = Throw RangeError.
Proof.
  unfold pow_rem. intros [He | ->].
  - now rewrite bigint_pow_negative.
  - destruct (bigint_pow b e) as [pw | []]; reflexivity.
Qed.

(** What the exchange returns for non-negative inputs, a modulus up to 2^53
    and powers that stay clear of the maximum BigInt size: the largest power
    it can meet is that of the larger of [g] and [p] to the larger of the
    two secrets. *)
Lemma diffieHellman_value (p g a b : Z) :
  0 <= g -> 0 <= a -> 0 <= b -> 0 < p <= 2 ^ 53 ->
  bigint_safe (Z.max g p ^ Z.max a b) ->
  diffieHellmanExchange p g a b
  = Ok {| alicePublicKey := g ^ a mod p;
          bobPublicKey := g ^ b mod p;
          sharedSecretAlice := (g ^ b mod p) ^ a mod p;
          sharedSecretBob := (g ^ a mod p) ^ b mod p |}.
Proof.
  intros Hg Ha Hb Hp Hsafe.
  assert (Hpr : forall x e, 0 <= x <= Z.max g p -> 0 <= e <= Z.max a b ->
                            pow_rem x e p = Ok (x ^ e mod p)).
  { intros x e Hx He. rewrite pow_rem_safe; try lia.
    - now rewrite rem_is_mod by (try apply Z.pow_nonneg; lia).
    - apply (bigint_safe_pow_le x (Z.max g p) e (Z.max a b)); [lia | lia | exact Hsafe]. }
  assert (Hbound : forall z, 0 <= z mod p <= 2 ^ 53)
    by (intros z; pose proof (Z.mod_pos_bound z p ltac:(lia)); lia).
  assert (Hres : forall z, 0 <= z mod p <= Z.max g p)
    by (intros z; pose proof (Z.mod_pos_bound z p ltac:(lia)); lia).
  unfold diffieHellmanExchange, BigInt.
  rewrite !Hpr by lia. cbn.
  rewrite !Hpr by (try apply Hres; lia). cbn.
  now rewrite !Number_exact by apply Hbound.
Qed.

(** The two shared secrets agree, for non-negative inputs, a modulus up to
    2^53 and powers that stay clear of the maximum BigInt size. *)
Lemma diffieHellman_secrets_agree (p g a b : Z) :
  0 <= g -> 0 <= a -> 0 <= b -> 0 < p <= 2 ^ 53 ->
  bigint_safe (Z.max g p ^ Z.max a b) ->
  exists r, diffieHellmanExchange p g a b = Ok r /\ sharedSecretAlice r = sharedSecretBob r.
Proof.
  intros Hg Ha Hb Hp Hsafe.
  eexists. split; [now apply diffieHellman_value |]. cbn.
  rewrite !Z.mod_pow_l, <- !Z.pow_mul_r by lia. now rewrite Z.mul_comm.
Qed.

End DiffieHellmanExchange.

(** ** RSA round trips *)

(** Encrypting, then decrypting, with exponents [e], [d] and modulus [n]. *)
Lemma rsa_pipeline (M e d n : Z) :
  0 <= M -> 0 <= e -> 0 <= d -> 0 < n <= 2 ^ 53 ->
  bigint_safe (M ^ e) -> bigint_safe (n ^ d) ->
  (c ← (pw ← bigint_pow M e; r ← bigint_rem pw n; mret (Number r));
   pw ← bigint_pow c d; r ← bigint_rem pw n; mret (Number r))
  = Ok (Spec.modPow (Spec.modPow M e n) d n).
Proof.
  intros HM He Hd Hn HsM Hsn.
  rewrite (pow_rem_nonneg M e n) by (try assumption; lia).
  pose proof (Z.mod_pos_bound (M ^ e) n ltac:(lia)) as Hc.
  change (Ok (M ^ e mod n) ≫= _)
    with (pw ← bigint_pow (M ^ e mod n) d; r ← bigint_rem pw n; mret (Number r)).
  rewrite pow_rem_nonneg; try lia.
  - now rewrite !modPow_spec by lia.
  - apply (bigint_safe_pow_le _ n d d); [lia | lia | exact Hsn].
Qed.

Lemma roundtrip_all_spec (e d n M : Z) :
  Spec.roundtrip_all e d n = true -> 0 <= M < n ->
  Spec.modPow (Spec.modPow M e n) d n = M.
Proof.
  unfold Spec.roundtrip_all. rewrite forallb_forall. intros Hall HM.
  apply Z.eqb_eq, Hall, list_elem_of_In, elem_of_seqZ. lia.
Qed.

Section RSAChapter2.
Import Chapter2.

(** The comment beside [d = 221] claims [(221 * 13) % 288 === 1]. *)
Example chapter2_private_exponent : (221 * 13) mod 288 = 281 /\ (133 * 13) mod 288 = 1.
Proof. split; reflexivity. Qed.

(** C1 at the script's own message, 100: the generated pair encrypts it to
    36 and decrypts that to 253, because the private exponent 221 is not the
    inverse of 13 modulo 288. *)
Theorem chapter2_roundtrip_100 :
  let '(publicKey, privateKey) := generateAsymmetricKeyPair in
  0 <= 100 < PublicKey.n publicKey /\
  encryptAsymmetric 100 publicKey = Ok 36 /\
  decryptAsymmetric 36 privateKey = Ok 253 /\
  (c ← encryptAsymmetric 100 publicKey; decryptAsymmetric c privateKey) <> Ok 100.
Proof.
  vm_compute. repeat split; congruence.
Qed.

(** With the inverse of 13 modulo 288, which is 133, as private exponent,
    every message below [n = 323] survives the round trip. *)
Lemma chapter2_roundtrip_with_133 (M : Z) :
  let publicKey := fst generateAsymmetricKeyPair in
  let privateKey := PrivateKey.make 133 (PublicKey.n publicKey) in
  0 <= M < PublicKey.n publicKey ->
  (c ← encryptAsymmetric M publicKey; decryptAsymmetric c privateKey) = Ok M.
Proof.
  cbv zeta. change (PublicKey.n (fst generateAsymmetricKeyPair)) with 323. intros HM.
  unfold encryptAsymmetric, decryptAsymmetric, BigInt.
  change (PublicKey.e (fst generateAsymmetricKeyPair)) with 13.
  change (PublicKey.n (fst generateAsymmetricKeyPair)) with 323.
  cbn [PrivateKey.d PrivateKey.n].
  rewrite rsa_pipeline; try lia.
  - f_equal. apply roundtrip_all_spec; [vm_compute; reflexivity | lia].
  - apply (bigint_safe_pow_le M 323 13 13); [lia | lia |].
    apply bigint_safe_pow_bound; [lia | vm_compute; reflexivity].
  - apply bigint_safe_pow_bound; [lia | vm_compute; reflexivity].
Qed.

End RSAChapter2.

Section RSAChapter11.
Import Chapter11.

(** The chapter-11 pair, generated from [p = 61] and [q = 53], round-trips
    every message below [n = 3233]. *)
Lemma chapter11_roundtrip (M : Z) :
  let keys := generateRSAKeyPair p q in
  0 <= M < PublicKey.n (publicKey keys) ->
  (c ← encryptRSA M (publicKey keys); decryptRSA c (privateKey keys)) = Ok M.
Proof.
  cbv zeta. change (PublicKey.n (publicKey (generateRSAKeyPair p q))) with 3233. intros HM.
  unfold encryptRSA, decryptRSA, BigInt.
  change (PublicKey.e (publicKey (generateRSAKeyPair p q))) with 17.
  change (PublicKey.n (publicKey (generateRSAKeyPair p q))) with 3233.
  change (PrivateKey.d (privateKey (generateRSAKeyPair p q))) with 2753.
  change (PrivateKey.n (privateKey (generateRSAKeyPair p q))) with 3233.
  rewrite rsa_pipeline; try lia.
  - f_equal. apply roundtrip_all_spec; [vm_compute; reflexivity | lia].
  - apply (bigint_safe_pow_le M 3233 17 17); [lia | lia |].
    apply bigint_safe_pow_bound; [lia | vm_compute; reflexivity].
  - apply bigint_safe_pow_bound; [lia | vm_compute; reflexivity].
Qed.

(** The private exponent is the constant 2753 whatever the primes: for
    [p = 23], [q = 29] the pair does not round-trip the message 2. *)
Example chapter11_other_primes :
  let keys := generateRSAKeyPair 23 29 in
  (c ← encryptRSA 2 (publicKey keys); decryptRSA c (privateKey keys)) = Ok 565.
Proof.
  cbv zeta. unfold encryptRSA, decryptRSA, BigInt.
  change (PublicKey.e (publicKey (generateRSAKeyPair 23 29))) with 17.
  change (PublicKey.n (publicKey (generateRSAKeyPair 23 29))) with 667.
  change (PrivateKey.d (privateKey (generateRSAKeyPair 23 29))) with 2753.
  change (PrivateKey.n (privateKey (generateRSAKeyPair 23 29))) with 667.
  rewrite rsa_pipeline; try lia.
  - vm_compute. reflexivity.
  - vm_compute. reflexivity.
  - apply bigint_safe_pow_bound; [lia | vm_compute; reflexivity].
Qed.

End RSAChapter11.

(** ** [modularInverse] *)

Section ModularInverse.
Import ECDH.

Lemma find_ext_in {A : Type} (f g : A -> bool) (l : list A) :
  (forall x, In x l -> f x = g x) -> List.find f l = List.find g l.
Proof.
  induction l as [| y l IH]; intros Hfg; [reflexivity |].
  cbn. rewrite <- (Hfg y) by (left; reflexivity).
  destruct (f y); [reflexivity |].
  apply IH. intros x Hx. apply Hfg. now right.
Qed.

(** Products of two residues stay exact while the modulus is at most
    94906265, the largest integer whose square does not exceed 2^53. *)
Lemma residue_product_exact (u v p : Z) :
  0 <= u < p -> 0 <= v < p -> p <= 94906265 -> fmul u v = u * v.
Proof.
  intros Hu Hv Hp. apply round53_exact.
  assert (0 <= u * v) by (apply Z.mul_nonneg_nonneg; lia).
  assert (u * v <= 94906264 * 94906264) by (apply Z.mul_le_mono_nonneg; lia).
  change (2 ^ 53) with 9007199254740992. lia.
Qed.

(** The normalisation [((n % p) + p) % p] is the non-negative residue. *)
Lemma normalise_residue (n p : Z) :
  0 < p <= 94906265 -> frem (fadd (frem n p) p) p = n mod p.
Proof.
  intros Hp. unfold frem, fadd.
  pose proof (rem_bounds n p ltac:(lia)) as Hb.
  rewrite round53_exact by (change (2 ^ 53) with 9007199254740992; lia).
  rewrite rem_is_mod by lia. now apply rem_plus_mod.
Qed.

(** The search, with the floating-point operators resolved. *)
Lemma modularInverse_search (n p : Z) :
  0 < p <= 94906265 ->
  modularInverse n p
  = default 0 (List.find (fun x => (n * x) mod p =? 1) (seqZ 1 (p - 1))).
Proof.
  intros Hp. unfold modularInverse. rewrite normalise_residue by assumption.
  f_equal. apply find_ext_in. intros x Hx.
  apply list_elem_of_In, elem_of_seqZ in Hx.
  pose proof (Z.mod_pos_bound n p ltac:(lia)) as Hn.
  rewrite (residue_product_exact (n mod p) x p) by lia.
  unfold frem. rewrite rem_is_mod by (try apply Z.mul_nonneg_nonneg; lia).
  now rewrite Zmult_mod_idemp_l.
Qed.

(** The search stops at the first candidate that passes the test. *)
Lemma find_first {A : Type} (f : A -> bool) (l1 l2 : list A) (x : A) :
  forallb (fun y => negb (f y)) l1 = true -> f x = true ->
  List.find f (l1 ++ x :: l2) = Some x.
Proof.
  intros Hl1 Hx. induction l1 as [| y l1 IH]; cbn.
  - now rewrite Hx.
  - cbn in Hl1. apply andb_prop in Hl1 as [Hy Hl1].
    apply negb_true_iff in Hy. rewrite Hy. now apply IH.
Qed.

Lemma modularInverse_first (n p x : Z) :
  1 <= x < p ->
  forallb (fun y => negb (frem (fmul (frem (fadd (frem n p) p) p) y) p =? 1))
          (seqZ 1 (x - 1)) = true ->
  (frem (fmul (frem (fadd (frem n p) p) p) x) p =? 1) = true ->
  modularInverse n p = x.
Proof.
  intros Hx Hbefore Hat. unfold modularInverse.
  replace (p - 1) with ((x - 1) + (p - x)) by lia.
  rewrite seqZ_app by lia.
  rewrite (seqZ_cons (1 + (x - 1))) by lia.
  replace (1 + (x - 1)) with x by lia.
  now rewrite (find_first _ _ _ x Hbefore Hat).
Qed.

(** Without candidates the function returns 0. *)
Lemma modularInverse_small_modulus (n p : Z) : p <= 1 -> modularInverse n p = 0.
Proof.
  intros Hp. unfold modularInverse.
  replace (seqZ 1 (p - 1)) with (@nil Z); [reflexivity |].
  unfold seqZ. replace (Z.to_nat (p - 1)) with 0%nat by lia. reflexivity.
Qed.

(** A candidate that passes the test witnesses coprimality. *)
Lemma inverse_coprime (a x p : Z) : 1 < p -> (a * x) mod p = 1 -> Z.gcd a p = 1.
Proof.
  intros Hp Hax. apply Z.bezout_1_gcd.
  exists x, (- ((a * x) / p)).
  pose proof (Z.div_mod (a * x) p ltac:(lia)). lia.
Qed.

(** A coprime number has an inverse among the candidates. *)
Lemma coprime_inverse (a p : Z) :
  1 < p -> Z.gcd a p = 1 -> exists x, 1 <= x < p /\ (a * x) mod p = 1.
Proof.
  intros Hp Hg. destruct (Z.gcd_bezout a p 1 Hg) as (u & v & Huv).
  assert (Hx : (a * (u mod p)) mod p = 1).
  { rewrite Zmult_mod_idemp_r.
    replace (a * u) with (1 + (- v) * p) by lia.
    rewrite Z_mod_plus_full. apply Z.mod_small. lia. }
  exists (u mod p). split; [| exact Hx].
  pose proof (Z.mod_pos_bound u p ltac:(lia)) as Hb.
  destruct (Z.eq_dec (u mod p) 0) as [H0 | H0]; [| lia].
  rewrite H0, Z.mul_0_r, Zmod_0_l in Hx. discriminate.
Qed.

(** Two inverses of the same number are congruent. *)
Lemma inverse_unique (a x x' p : Z) :
  0 < p -> 0 <= x < p -> 0 <= x' < p ->
  (a * x) mod p = 1 mod p -> (a * x') mod p = 1 mod p -> x' = x.
Proof.
  intros Hp Hx Hx' Hax Hax'.
  assert (Hc : x' mod p = x mod p).
  { transitivity ((x' * (a * x)) mod p).
    - rewrite <- Zmult_mod_idemp_r, Hax, Zmult_mod_idemp_r. f_equal. lia.
    - replace (x' * (a * x)) with ((a * x') * x) by ring.
      rewrite <- Zmult_mod_idemp_l, Hax', Zmult_mod_idemp_l. f_equal. lia. }
  rewrite !Z.mod_small in Hc by lia. exact Hc.
Qed.

Example modularInverse_13_288 : modularInverse 13 288 = 133 /\ (133 * 13) mod 288 = 1.
Proof. split; vm_compute; reflexivity. Qed.

(** C2, as stated, fails at its own instance: 13 and 288 are coprime, the
    search returns 133, not 221, and [(221 * 13) mod 288] is 281, not 1. *)
Lemma modularInverse_13_288_not_221 :
  Z.gcd 13 288 = 1 /\ modularInverse 13 288 <> 221 /\ (221 * 13) mod 288 <> 1.
Proof. repeat split; vm_compute; congruence. Qed.

(** Above the bound the products round.  For the modulus [2^53 - 1] and
    [n = (2^53 + 1) / 3], coprime to it, the product [n * 3 = 2^53 + 1]
    rounds to [2^53], whose remainder is 1: the search returns 3, although
    [n * 3] is 2 modulo [2^53 - 1] and the inverse of [n] is [2^52 + 1]. *)
Lemma modularInverse_rounded_product :
  let p := 2 ^ 53 - 1 in
  let n := 3002399751580331 in
  Z.gcd n p = 1 /\ modularInverse n p = 3 /\
  (n * 3) mod p = 2 /\ (n * (2 ^ 52 + 1)) mod p = 1.
Proof.
  cbv zeta. split; [vm_compute; reflexivity |]. split; [| split; vm_compute; reflexivity].
  apply modularInverse_first; [lia | vm_compute; reflexivity | vm_compute; reflexivity].
Qed.

(** C2, amended: for every [a] and every modulus [1 <= n <= 94906265] with
    [gcd(a, n) = 1], [modularInverse a n] is the unique [d] with
    [0 <= d < n] and [a * d = 1 (mod n)]. *)
Theorem modularInverse_correct (a n : Z) :
  1 <= n <= 94906265 -> Z.gcd a n = 1 ->
  let d := modularInverse a n in
  0 <= d < n /\ (a * d) mod n = 1 mod n /\
  (forall d', 0 <= d' < n -> (a * d') mod n = 1 mod n -> d' = d).
Proof.
  intros Hn Hg. cbv zeta.
  destruct (Z.eq_dec n 1) as [-> | Hn1].
  - rewrite modularInverse_small_modulus by lia.
    repeat split; try lia. now rewrite !Z.mod_1_r.
  - assert (Hd : 1 <= modularInverse a n < n /\ (a * modularInverse a n) mod n = 1).
    { rewrite modularInverse_search by lia.
      destruct (List.find _ _) as [x |] eqn:Hfind; cbn.
      - apply find_some in Hfind as [Hin Hx].
        apply list_elem_of_In, elem_of_seqZ in Hin. apply Z.eqb_eq in Hx. lia.
      - destruct (coprime_inverse a n ltac:(lia) Hg) as (x & Hx & Hax).
        pose proof (find_none _ _ Hfind x) as Hnone. cbv beta in Hnone.
        rewrite Hax in Hnone. discriminate Hnone.
        apply list_elem_of_In, elem_of_seqZ. lia. }
    destruct Hd as [Hd Had].
    assert (H1 : 1 mod n = 1) by (apply Z.mod_small; lia).
    split; [lia |]. split; [congruence |].
    intros d' Hd' Had'. apply (inverse_unique a _ d' n); try lia; congruence.
Qed.

Lemma modularInverse_correct_witness :
  let d := modularInverse 13 288 in
  0 <= d < 288 /\ (13 * d) mod 288 = 1 mod 288 /\
  (forall d', 0 <= d' < 288 -> (13 * d') mod 288 = 1 mod 288 -> d' = d).
Proof. apply (modularInverse_correct 13 288); [lia | reflexivity]. Defined.

(** C7, as stated, fails: 2 and 4 are not coprime, and [modularInverse(2, 4)]
    returns the number 0 instead of failing. *)
Lemma modularInverse_2_4 : Z.gcd 2 4 <> 1 /\ modularInverse 2 4 = 0.
Proof. split; vm_compute; congruence. Qed.

(** Above the bound a rounded product can pass the test without an inverse
    existing: for [p = 5 * h] and [n = 3 * h], with [h = 600479950316069],
    the product [n * 5 = 3 * p] rounds up by one and the search returns 5. *)
Lemma modularInverse_rounded_no_inverse :
  let p := 3002399751580345 in
  let n := 1801439850948207 in
  Z.gcd n p = 600479950316069 /\ modularInverse n p = 5.
Proof.
  cbv zeta. split; [vm_compute; reflexivity |].
  apply modularInverse_first; [lia | vm_compute; reflexivity | vm_compute; reflexivity].
Qed.

(** C7, amended: for every [a] and every modulus [n <= 94906265] with
    [gcd(a, n) <> 1], [modularInverse a n] returns 0; no error is raised. *)
Theorem modularInverse_no_inverse (a n : Z) :
  n <= 94906265 -> Z.gcd a n <> 1 -> modularInverse a n = 0.
Proof.
  intros Hn Hg. destruct (Z_le_gt_dec n 1) as [Hle | Hgt].
  - now apply modularInverse_small_modulus.
  - rewrite modularInverse_search by lia.
    destruct (List.find _ _) as [x |] eqn:Hfind; [| reflexivity].
    apply find_some in Hfind as [_ Hx]. apply Z.eqb_eq in Hx.
    exfalso. apply Hg. apply (inverse_coprime a x n); [lia | exact Hx].
Qed.

Lemma modularInverse_no_inverse_witness : modularInverse 2 4 = 0.
Proof. apply (modularInverse_no_inverse 2 4); [lia | vm_compute; congruence]. Defined.

End ModularInverse.

(** ** [addPoints] *)

Section AddPoints.
Import ECDH.

(** Two finite points never add up to the point at infinity: past the two
    [null] tests every path builds a point with numeric coordinates. *)
Lemma addPoints_finite (P Q : Point) :
  x P <> None -> x Q <> None -> x (addPoints P Q) <> None.
Proof.
  intros HP HQ. unfold addPoints.
  destruct (x P) as [Px |]; [| congruence].
  destruct (x Q) as [Qx |]; [| congruence].
  cbn. discriminate.
Qed.

(** The denominator 0 has no inverse; the helper answers 0 and the slope
    becomes 0. *)
Example modularInverse_0_23 : modularInverse 0 p = 0.
Proof. vm_compute. reflexivity. Qed.

Example addPoints_G_G : addPoints G G = {| x := Some 7; y := Some 11 |}.
Proof. vm_compute. reflexivity. Qed.

(** C3 at [P = (1, 7)] and [Q = (1, 16)], two points of the curve with the
    same abscissa and different ordinates, and at the doubling of [(4, 0)]:
    [addPoints] returns the finite points [(21, 16)] and [(15, 0)], not the
    point at infinity; [(21, 16)] is not even on the curve. *)
Theorem addPoints_vertical_line :
  let P := {| x := Some 1; y := Some 7 |} in
  let Q := {| x := Some 1; y := Some 16 |} in
  let D := {| x := Some 4; y := Some 0 |} in
  (on_curve P /\ on_curve Q /\ x P = x Q /\ y P <> y Q /\
   addPoints P Q = {| x := Some 21; y := Some 16 |} /\
   addPoints P Q <> O /\ ~ on_curve (addPoints P Q)) /\
  (on_curve D /\ y D = Some 0 /\
   addPoints D D = {| x := Some 15; y := Some 0 |} /\ addPoints D D <> O).
Proof.
  cbv zeta. split.
  - assert (Hsum : addPoints {| x := Some 1; y := Some 7 |} {| x := Some 1; y := Some 16 |}
                   = {| x := Some 21; y := Some 16 |}) by (vm_compute; reflexivity).
    rewrite Hsum.
    repeat split; try (vm_compute; congruence).
    unfold on_curve; cbn [x y]. intros (_ & _ & Heq). vm_compute in Heq. discriminate.
  - assert (Hdbl : addPoints {| x := Some 4; y := Some 0 |} {| x := Some 4; y := Some 0 |}
                   = {| x := Some 15; y := Some 0 |}) by (vm_compute; reflexivity).
    rewrite Hdbl.
    repeat split; try (vm_compute; congruence).
Qed.

End AddPoints.

(** ** The XOR cipher *)

Section XorCipher.
Import Chapter2.

Lemma code_unit_lxor (u v : Z) : code_unit u -> code_unit v -> code_unit (Z.lxor u v).
Proof.
  unfold code_unit. intros Hu Hv.
  assert (Hnn : 0 <= Z.lxor u v) by (apply Z.lxor_nonneg; lia).
  split; [exact Hnn |].
  destruct (Z.eq_dec (Z.lxor u v) 0) as [-> | Hnz]; [lia |].
  change 65536 with (2 ^ 16). apply Z.log2_lt_pow2; [lia |].
  pose proof (Z.log2_lxor u v ltac:(lia) ltac:(lia)) as Hlog.
  assert (Hlu : Z.log2 u < 16).
  { destruct (Z.eq_dec u 0) as [-> | ?]; [reflexivity |].
    apply Z.log2_lt_pow2; change (2 ^ 16) with 65536; lia. }
  assert (Hlv : Z.log2 v < 16).
  { destruct (Z.eq_dec v 0) as [-> | ?]; [reflexivity |].
    apply Z.log2_lt_pow2; change (2 ^ 16) with 65536; lia. }
  lia.
Qed.

Lemma fromCharCode_code_unit (c : Z) : code_unit c -> fromCharCode c = c.
Proof. intros Hc. apply Z.mod_small. exact Hc. Qed.

(** XOR with the same key unit twice gives the message unit back. *)
Lemma xor_twice (m k : Z) :
  code_unit m -> code_unit k ->
  fromCharCode (Z.lxor (fromCharCode (Z.lxor m k)) k) = m.
Proof.
  intros Hm Hk.
  rewrite (fromCharCode_code_unit (Z.lxor m k)) by now apply code_unit_lxor.
  rewrite Z.lxor_assoc, Z.lxor_nilpotent, Z.lxor_0_r.
  now apply fromCharCode_code_unit.
Qed.

(** What [charCodeAt] returns, as an XOR operand, is a code unit: NaN
    counts as 0. *)
Lemma key_unit (key : list Z) (i : nat) :
  Forall code_unit key -> code_unit (toInt32_of_charCode (charCodeAt key i)).
Proof.
  intros Hkey. unfold charCodeAt, toInt32_of_charCode.
  destruct (key !! i) as [k |] eqn:Hk; cbn.
  - exact (Forall_lookup_1 _ _ _ _ Hkey Hk).
  - unfold code_unit. lia.
Qed.

Lemma encryptSymmetric_length (message key : list Z) :
  length (encryptSymmetric message key) = length message.
Proof. unfold encryptSymmetric. now rewrite length_fmap, length_seq. Qed.

Lemma encryptSymmetric_lookup (message key : list Z) (i : nat) (m : Z) :
  message !! i = Some m ->
  encryptSymmetric message key !! i
  = Some (fromCharCode
            (Z.lxor m (toInt32_of_charCode (charCodeAt key (key_index i (length key)))))).
Proof.
  intros Hm. unfold encryptSymmetric.
  rewrite list_lookup_fmap, lookup_seq_lt by (eapply lookup_lt_Some; eassumption).
  cbn. unfold bitxor, charCodeAt at 1. now rewrite Hm.
Qed.

(** With an empty key every key unit reads as NaN and the cipher is the
    identity. *)
Lemma encryptSymmetric_empty_key (message : list Z) :
  Forall code_unit message -> encryptSymmetric message [] = message.
Proof.
  intros Hmsg. apply list_eq. intros i.
  destruct (message !! i) as [m |] eqn:Hm.
  - rewrite (encryptSymmetric_lookup _ _ _ _ Hm). cbn.
    rewrite Z.lxor_0_r. f_equal. apply fromCharCode_code_unit.
    exact (Forall_lookup_1 _ _ _ _ Hmsg Hm).
  - apply lookup_ge_None. rewrite encryptSymmetric_length. now apply lookup_ge_None.
Qed.

(** C9: for every message and every non-empty key, strings being sequences
    of UTF-16 code units, decrypting the encryption with the same key gives
    the message back. *)
Theorem xor_cipher_involution (message key : list Z) :
  Forall code_unit message -> Forall code_unit key -> key <> [] ->
  decryptSymmetric (encryptSymmetric message key) key = message.
Proof.
  intros Hmsg Hkey _. unfold decryptSymmetric. apply list_eq. intros i.
  destruct (message !! i) as [m |] eqn:Hm.
  - rewrite (encryptSymmetric_lookup _ _ i _ (encryptSymmetric_lookup _ _ i m Hm)).
    f_equal. apply xor_twice.
    + exact (Forall_lookup_1 _ _ _ _ Hmsg Hm).
    + now apply key_unit.
  - apply lookup_ge_None. rewrite !encryptSymmetric_length. now apply lookup_ge_None.
Qed.

Lemma xor_cipher_involution_witness :
  decryptSymmetric (encryptSymmetric [72; 101; 108; 108; 111] [115; 117]) [115; 117]
  = [72; 101; 108; 108; 111].
Proof.
  apply (xor_cipher_involution [72; 101; 108; 108; 111] [115; 117]).
  - repeat constructor; unfold code_unit; lia.
  - repeat constructor; unfold code_unit; lia.
  - discriminate.
Defined.

End XorCipher.

(** ** The Yates shuffle *)

Section YatesShuffle.
Import Chapter13.
Context {T : Type} (undefined : T).
Local Open Scope nat_scope.

Lemma insert_head_perm (l : list T) (i : nat) (u v : T) :
  l !! i = Some u -> u :: <[i := v]> l ≡ₚ v :: l.
Proof.
  revert i. induction l as [| w l IH]; intros [| i] Hi; try discriminate.
  - injection Hi as ->. cbn. apply Permutation_swap.
  - cbn in Hi |- *. rewrite (Permutation_swap w u), (IH i Hi).
    apply Permutation_swap.
Qed.

(** Writing each of two cells with the other's content permutes the list. *)
Lemma exchange_perm (l : list T) (i j : nat) (ai aj : T) :
  l !! i = Some ai -> l !! j = Some aj -> <[j := ai]> (<[i := aj]> l) ≡ₚ l.
Proof.
  revert i j. induction l as [| w l IH]; intros [| i] [| j] Hi Hj; try discriminate.
  - injection Hi as ->. injection Hj as ->. reflexivity.
  - injection Hi as ->. cbn in Hj |- *. now apply insert_head_perm.
  - injection Hj as ->. cbn in Hi |- *. now apply insert_head_perm.
  - cbn in Hi, Hj |- *. now rewrite (IH i j Hi Hj).
Qed.

Lemma array_set_in_range (array : list T) (i : nat) (v : T) :
  i < length array -> array_set undefined array i v = <[i := v]> array.
Proof. intros Hi. unfold array_set. now rewrite decide_True. Qed.

Lemma swap_in_range (array : list T) (i j : nat) :
  i < length array -> j < length array ->
  swap undefined array i j ≡ₚ array.
Proof.
  intros Hi Hj. unfold swap, array_get.
  destruct (lookup_lt_is_Some_2 array i Hi) as [ai Hai].
  destruct (lookup_lt_is_Some_2 array j Hj) as [aj Haj].
  rewrite Hai, Haj. cbn [default from_option id].
  rewrite (array_set_in_range array i aj Hi).
  rewrite array_set_in_range by (now rewrite length_insert).
  now apply exchange_perm.
Qed.

Lemma shuffle_from_perm (randomInt : nat -> nat) (i : nat) :
  (forall max, 0 < max -> randomInt max < max) ->
  forall array : list T, i < length array ->
  shuffle_from undefined randomInt i array ≡ₚ array.
Proof.
  intros Hrand. induction i as [| i IH]; intros array Hi; [reflexivity |].
  cbn [shuffle_from].
  assert (Hj : randomInt (S i + 1) < length array).
  { pose proof (Hrand (S i + 1) ltac:(lia)). lia. }
  pose proof (swap_in_range array (S i) _ Hi Hj) as Hswap.
  rewrite IH; [exact Hswap |].
  rewrite (Permutation_length Hswap). lia.
Qed.

(** C10: whatever indices [randomInt] draws within its range, [0 <= j <= i]
    at the step [i], the shuffled array has the length and the elements,
    with their multiplicities, of the input. *)
Theorem yatesShuffle_permutation (randomInt : nat -> nat) (array : list T) :
  (forall max, 0 < max -> randomInt max < max) ->
  length (yatesShuffle undefined randomInt array) = length array /\
  yatesShuffle undefined randomInt array ≡ₚ array.
Proof.
  intros Hrand.
  assert (Hperm : yatesShuffle undefined randomInt array ≡ₚ array).
  { unfold yatesShuffle. destruct array as [| a array]; [reflexivity |].
    apply shuffle_from_perm; [exact Hrand |]. cbn. lia. }
  split; [exact (Permutation_length Hperm) | exact Hperm].
Qed.

End YatesShuffle.

Lemma yatesShuffle_permutation_witness :
  length (Chapter13.yatesShuffle 0%nat (fun _ => 0%nat) [1; 2; 3; 4]%nat) = 4%nat /\
  Chapter13.yatesShuffle 0%nat (fun _ => 0%nat) [1; 2; 3; 4]%nat ≡ₚ [1; 2; 3; 4]%nat.
Proof.
  apply (yatesShuffle_permutation 0%nat (fun _ => 0%nat) [1; 2; 3; 4]%nat).
  intros max Hmax. exact Hmax.
Defined.

Example yatesShuffle_rotates :
  Chapter13.yatesShuffle 0%nat (fun _ => 0%nat) [1; 2; 3; 4]%nat = [2; 3; 4; 1]%nat.
Proof. reflexivity. Qed.

(** ** [scalarMultiply] and the group law on the script's curve *)

Section ScalarMultiply.
Import ECDH.

(** Adding to the point at infinity returns the other operand. *)
Lemma addPoints_O_l (Q : Point) : addPoints O Q = Q.
Proof. reflexivity. Qed.

Lemma addPoints_x_l (P Q : Point) : x P = None -> addPoints P Q = Q.
Proof. intros HP. unfold addPoints. now rewrite HP. Qed.

(** More fuel than [k] changes nothing: the loop has stopped by then. *)
Lemma scalarMultiply_loop_fuel (fuel : nat) :
  forall k result addend, k <= Z.of_nat fuel ->
  scalarMultiply_loop (S fuel) k result addend = scalarMultiply_loop fuel k result addend.
Proof.
  induction fuel as [| fuel IH]; intros k result addend Hk.
  - cbn. destruct (Z.ltb_spec 0 k); [lia | reflexivity].
  - cbn [scalarMultiply_loop]. destruct (Z.ltb_spec 0 k) as [Hpos | _]; [| reflexivity].
    rewrite <- (IH (k / 2)); [reflexivity |].
    assert (k / 2 < k) by (apply Z.div_lt; lia). lia.
Qed.

Lemma scalarMultiply_loop_finite (fuel : nat) :
  forall k result addend,
  x addend <> None ->
  x result <> None \/ 1 <= k <= Z.of_nat fuel ->
  x (scalarMultiply_loop fuel k result addend) <> None.
Proof.
  induction fuel as [| fuel IH]; intros k result addend Haddend Hres.
  - cbn. destruct Hres as [Hres | Hk]; [exact Hres | lia].
  - cbn [scalarMultiply_loop].
    assert (Hdouble : x (addPoints addend addend) <> None)
      by now apply addPoints_finite.
    destruct (Z.ltb_spec 0 k) as [Hpos | Hneg].
    + destruct (frem k 2 =? 1) eqn:Hodd.
      * apply IH; [exact Hdouble |]. left.
        destruct (x result) as [rx |] eqn:Hrx.
        -- apply addPoints_finite; [congruence | exact Haddend].
        -- now rewrite (addPoints_x_l result addend Hrx).
      * apply IH; [exact Hdouble |].
        destruct Hres as [Hres | Hk]; [now left | right].
        apply Z.eqb_neq in Hodd. unfold frem in Hodd.
        rewrite Z.rem_mod_nonneg in Hodd by lia.
        pose proof (Z.div_mod k 2 ltac:(lia)).
        pose proof (Z.mod_pos_bound k 2 ltac:(lia)). lia.
    + destruct Hres as [Hres | Hk]; [exact Hres | lia].
Qed.

(** A scalar of 0 or less yields the point at infinity: a negative scalar is
    not rejected.  Multiplying the point at infinity yields it again. *)
Theorem scalarMultiply_infinity (k : Z) (P : Point) :
  (k <= 0 -> scalarMultiply k P = O) /\ scalarMultiply k O = O.
Proof.
  split.
  - intros Hk. unfold scalarMultiply. replace (Z.to_nat k) with 0%nat by lia. reflexivity.
  - unfold scalarMultiply. generalize (Z.to_nat k) as fuel. intros fuel. revert k.
    induction fuel as [| fuel IH]; intros k; [reflexivity |].
    cbn [scalarMultiply_loop]. rewrite addPoints_O_l.
    destruct (0 <? k); [| reflexivity].
    destruct (frem k 2 =? 1); apply IH.
Qed.

(** For a scalar of 1 or more and a finite point the product is a finite
    point: [scalarMultiply] never returns the point at infinity, whatever
    the order of the point. *)
Theorem scalarMultiply_finite (k : Z) (P : Point) :
  1 <= k -> x P <> None -> x (scalarMultiply k P) <> None.
Proof.
  intros Hk HP. unfold scalarMultiply.
  apply scalarMultiply_loop_finite; [exact HP |]. right. lia.
Qed.

Lemma scalarMultiply_finite_witness : x (scalarMultiply 28 G) <> None.
Proof. apply (scalarMultiply_finite 28 G); [lia | discriminate]. Defined.

(** [G] has order 28 on the curve, and 28 times [G] comes out as a finite
    point off the curve. *)
Example scalarMultiply_28_G : scalarMultiply 28 G = {| x := Some 13; y := Some 4 |}.
Proof. vm_compute. reflexivity. Qed.

Lemma on_curveb_spec (P : Point) : on_curveb P = true <-> on_curve P.
Proof.
  unfold on_curveb, on_curve. destruct (x P) as [Px |], (y P) as [Py |];
    try (split; [discriminate | tauto]).
  rewrite !andb_true_iff, Z.eqb_eq, !Z.leb_le, !Z.ltb_lt. tauto.
Qed.

Lemma on_curve_enum (P : Point) : on_curve P -> P ∈ curve_points.
Proof.
  intros HP. unfold curve_points. apply list_elem_of_filter. split.
  - apply Is_true_true, on_curveb_spec, HP.
  - unfold on_curve in HP. destruct P as [[Px |] [Py |]]; cbn in HP; try tauto.
    apply list_elem_of_bind. exists Px. split; [| apply elem_of_seqZ; lia].
    apply list_elem_of_bind. exists Py. split; [| apply elem_of_seqZ; lia].
    apply list_elem_of_singleton. reflexivity.
Qed.

(** A property of pairs of curve points, checked on the 27 x 27 pairs. *)
Lemma curve_pairs_ind (R : Point -> Point -> Prop) `{!forall P Q, Decision (R P Q)} :
  bool_decide (Forall (fun P => Forall (R P) curve_points) curve_points) = true ->
  forall P Q, on_curve P -> on_curve Q -> R P Q.
Proof.
  intros Hall P Q HP HQ. apply bool_decide_eq_true in Hall.
  rewrite Forall_forall in Hall. specialize (Hall P (on_curve_enum P HP)).
  rewrite Forall_forall in Hall. exact (Hall Q (on_curve_enum Q HQ)).
Qed.

Lemma range_ind (R : Z -> Prop) `{!forall k, Decision (R k)} (lo n : Z) :
  bool_decide (Forall R (seqZ lo n)) = true -> forall k, lo <= k < lo + n -> R k.
Proof.
  intros Hall k Hk. apply bool_decide_eq_true in Hall.
  rewrite Forall_forall in Hall. apply Hall, elem_of_seqZ, Hk.
Qed.

(** Off the vertical lines, the sum of two curve points is a curve point and
    does not depend on the order of the operands. *)
Lemma addPoints_table (P Q : Point) :
  on_curve P -> on_curve Q ->
  vertical P Q \/ (on_curveb (addPoints P Q) = true /\ addPoints P Q = addPoints Q P).
Proof.
  revert P Q.
  apply (curve_pairs_ind
           (fun P Q => vertical P Q \/
                       (on_curveb (addPoints P Q) = true /\ addPoints P Q = addPoints Q P))).
  vm_compute. reflexivity.
Qed.

(** Closure: the sum of two points of the curve that do not lie on a common
    vertical line is a point of the curve. *)
Theorem addPoints_closed (P Q : Point) :
  on_curve P -> on_curve Q -> ~ vertical P Q -> on_curve (addPoints P Q).
Proof.
  intros HP HQ Hv. destruct (addPoints_table P Q HP HQ) as [Hv' | [Hon _]]; [tauto |].
  now apply on_curveb_spec.
Qed.

Lemma addPoints_closed_witness :
  on_curve (addPoints G {| x := Some 7; y := Some 11 |}).
Proof.
  apply (addPoints_closed G {| x := Some 7; y := Some 11 |}).
  - apply on_curveb_spec. reflexivity.
  - apply on_curveb_spec. reflexivity.
  - intros [Hx _]. discriminate Hx.
Defined.

(** Commutativity: for two points of the curve that do not lie on a common
    vertical line, [addPoints P Q] and [addPoints Q P] are the same point. *)
Theorem addPoints_comm (P Q : Point) :
  on_curve P -> on_curve Q -> ~ vertical P Q -> addPoints P Q = addPoints Q P.
Proof.
  intros HP HQ Hv. destruct (addPoints_table P Q HP HQ) as [Hv' | [_ Heq]]; [tauto | exact Heq].
Qed.

Lemma addPoints_comm_witness :
  addPoints G {| x := Some 7; y := Some 11 |} = addPoints {| x := Some 7; y := Some 11 |} G.
Proof.
  apply (addPoints_comm G {| x := Some 7; y := Some 11 |}).
  - apply on_curveb_spec. reflexivity.
  - apply on_curveb_spec. reflexivity.
  - intros [Hx _]. discriminate Hx.
Defined.

(** On a vertical line the order matters: the two sums of [(1, 7)] and
    [(1, 16)] differ. *)
Example addPoints_vertical_order :
  addPoints G {| x := Some 1; y := Some 16 |} <> addPoints {| x := Some 1; y := Some 16 |} G.
Proof. vm_compute. congruence. Qed.

(** [curve_points] lists the finite points of the curve, 27 of them, each
    once.  The multiples [k G] for [k] from 1 to 27, below the order 28 of
    [G], are points of the curve, no two of them coincide, and every finite
    point of the curve is one of them: [scalarMultiply] reaches each of the
    27 finite points exactly once. *)
Theorem scalarMultiply_G_generates :
  length curve_points = 27%nat /\
  NoDup curve_points /\
  (forall P, P ∈ curve_points <-> on_curve P) /\
  (forall k, 1 <= k <= 27 -> on_curve (scalarMultiply k G)) /\
  (forall j k, 1 <= j <= 27 -> 1 <= k <= 27 ->
               scalarMultiply j G = scalarMultiply k G -> j = k) /\
  (forall P, on_curve P -> exists k, 1 <= k <= 27 /\ scalarMultiply k G = P).
Proof.
  assert (Hall : forall j, 1 <= j < 1 + 27 ->
            Forall (fun k => on_curveb (scalarMultiply k G) = true /\
                             (scalarMultiply j G = scalarMultiply k G -> j = k))
                   (seqZ 1 27)).
  { apply (range_ind (fun j =>
            Forall (fun k => on_curveb (scalarMultiply k G) = true /\
                             (scalarMultiply j G = scalarMultiply k G -> j = k))
                   (seqZ 1 27))).
    vm_compute. reflexivity. }
  assert (Hreach : Forall (fun P => Exists (fun k => scalarMultiply k G = P) (seqZ 1 27))
                          curve_points).
  { apply (bool_decide_unpack _). vm_compute. exact I. }
  split; [vm_compute; reflexivity |].
  split; [apply (bool_decide_unpack _); vm_compute; exact I |].
  split; [| split; [| split]].
  - intros P. split; [| apply on_curve_enum].
    unfold curve_points. intros HP. apply list_elem_of_filter in HP as [HP _].
    apply on_curveb_spec, Is_true_true, HP.
  - intros k Hk. specialize (Hall 1 ltac:(lia)). rewrite Forall_forall in Hall.
    destruct (Hall k) as [Hon _]; [apply elem_of_seqZ; lia |].
    now apply on_curveb_spec.
  - intros j k Hj Hk. specialize (Hall j ltac:(lia)). rewrite Forall_forall in Hall.
    destruct (Hall k) as [_ Hinj]; [apply elem_of_seqZ; lia | exact Hinj].
  - intros P HP. rewrite Forall_forall in Hreach.
    specialize (Hreach P (on_curve_enum P HP)).
    apply Exists_exists in Hreach as (k & Hk & HkP).
    apply elem_of_seqZ in Hk. exists k. split; [lia | exact HkP].
Qed.

(** Double-and-add agrees with point addition on the multiples of [G]: for
    [j] and [k] between 1 and 27 whose sum is not the order 28, adding
    [j G] and [k G] gives [(j + k) G]. *)
Theorem scalarMultiply_G_additive (j k : Z) :
  1 <= j <= 27 -> 1 <= k <= 27 -> j + k <> 28 ->
  addPoints (scalarMultiply j G) (scalarMultiply k G) = scalarMultiply (j + k) G.
Proof.
  intros Hj Hk Hjk.
  assert (Hall : forall j, 1 <= j < 1 + 27 ->
            Forall (fun k => j + k <> 28 ->
                             addPoints (scalarMultiply j G) (scalarMultiply k G)
                             = scalarMultiply (j + k) G)
                   (seqZ 1 27)).
  { apply (range_ind (fun j =>
            Forall (fun k => j + k <> 28 ->
                             addPoints (scalarMultiply j G) (scalarMultiply k G)
                             = scalarMultiply (j + k) G)
                   (seqZ 1 27))).
    vm_compute. reflexivity. }
  specialize (Hall j ltac:(lia)). rewrite Forall_forall in Hall.
  apply Hall; [apply elem_of_seqZ; lia | exact Hjk].
Qed.

Lemma scalarMultiply_G_additive_witness :
  addPoints (scalarMultiply 6 G) (scalarMultiply 15 G) = scalarMultiply (6 + 15) G.
Proof. apply (scalarMultiply_G_additive 6 15); lia. Defined.

(** The exchange of the script: with private scalars [a] and [b] whose
    product stays below the order of [G], both parties arrive at
    [(a * b) G]. *)
Theorem ecdh_agreement (a b : Z) :
  1 <= a -> 1 <= b -> a * b <= 27 ->
  let public_A := scalarMultiply a G in
  let public_B := scalarMultiply b G in
  scalarMultiply a public_B = scalarMultiply (a * b) G /\
  scalarMultiply b public_A = scalarMultiply (a * b) G.
Proof.
  intros Ha Hb Hab. cbv zeta.
  assert (Hall : forall a, 1 <= a < 1 + 27 ->
            Forall (fun b => a * b <= 27 ->
                             scalarMultiply a (scalarMultiply b G) = scalarMultiply (a * b) G)
                   (seqZ 1 27)).
  { apply (range_ind (fun a =>
            Forall (fun b => a * b <= 27 ->
                             scalarMultiply a (scalarMultiply b G) = scalarMultiply (a * b) G)
                   (seqZ 1 27))).
    vm_compute. reflexivity. }
  assert (Ha' : a <= 27) by nia. assert (Hb' : b <= 27) by nia.
  split.
  - specialize (Hall a ltac:(lia)). rewrite Forall_forall in Hall.
    apply Hall; [apply elem_of_seqZ; lia | exact Hab].
  - specialize (Hall b ltac:(lia)). rewrite Forall_forall in Hall.
    rewrite (Z.mul_comm a b). apply Hall; [apply elem_of_seqZ; lia | lia].
Qed.

Lemma ecdh_agreement_witness :
  scalarMultiply 3 (scalarMultiply 5 G) = scalarMultiply (3 * 5) G /\
  scalarMultiply 5 (scalarMultiply 3 G) = scalarMultiply (3 * 5) G.
Proof. apply (ecdh_agreement 3 5); lia. Defined.

(** At the product 28 the two parties can disagree: with [a = 2] and
    [b = 14] the public point of the second party is [(4, 0)], whose
    doubling goes wrong. *)
Example ecdh_disagreement :
  scalarMultiply 2 (scalarMultiply 14 G) <> scalarMultiply 14 (scalarMultiply 2 G).
Proof. vm_compute. congruence. Qed.

End ScalarMultiply.

(** ** The zero-knowledge toy protocol *)

Section ZeroKnowledgeProtocol.
Import ZeroKnowledge.

Lemma honest_response_accepted (v challenge : Z) :
  49 * (v * v) <= 2 ^ 53 ->
  verifierVerify (fmul v v) challenge (proverResponse challenge v) = true.
Proof.
  intros Hv. change (2 ^ 53) with 9007199254740992 in Hv.
  assert (Hsq : 0 <= v * v) by apply Z.square_nonneg.
  assert (Hvv : fmul v v = v * v)
    by (apply round53_exact; change (2 ^ 53) with 9007199254740992; lia).
  unfold verifierVerify, proverResponse.
  destruct (challenge =? 0); [apply Z.eqb_refl |].
  change N with 49. change SECRET_X with 7.
  assert (Hv7 : fmul v 7 = v * 7).
  { apply round53_exact. change (2 ^ 53) with 9007199254740992.
    assert (Z.abs v <= v * v) by nia. lia. }
  rewrite Hv7, Hvv. unfold fmul.
  rewrite !round53_exact by (change (2 ^ 53) with 9007199254740992; lia).
  apply Z.eqb_eq. ring.
Qed.

(** Completeness: whatever number below 100 the prover draws and whatever
    challenge the verifier draws, the run of the protocol ends with the
    verifier accepting. *)
Theorem protocol_complete (randomInt : Z -> Z) :
  0 <= randomInt 100 < 100 -> protocol randomInt = true.
Proof.
  intros Hv. unfold protocol, proverCommit, verifierChallenge. cbn [v h].
  apply honest_response_accepted.
  assert (randomInt 100 * randomInt 100 <= 99 * 99) by (apply Z.mul_le_mono_nonneg; lia).
  change (2 ^ 53) with 9007199254740992. lia.
Qed.

Lemma protocol_complete_witness : protocol (fun max => max - 1) = true.
Proof. apply (protocol_complete (fun max => max - 1)). lia. Defined.

(** The verifier checks squares only: it accepts the opposite of the honest
    response as well. *)
Lemma opposite_response_accepted (v challenge : Z) :
  49 * (v * v) <= 2 ^ 53 ->
  verifierVerify (fmul v v) challenge (- proverResponse challenge v) = true.
Proof.
  intros Hv. pose proof (honest_response_accepted v challenge Hv) as Hacc.
  unfold verifierVerify in *.
  assert (Hneg : forall r, fmul (- r) (- r) = fmul r r)
    by (intros r; unfold fmul; f_equal; ring).
  now rewrite Hneg.
Qed.

End ZeroKnowledgeProtocol.

(** ** The brute-force discrete logarithm *)

Section DiscreteLog.
Import DiscreteLogarithm ModularArithmetic DiffieHellman.

(** Over candidates whose powers stay clear of the maximum BigInt size the
    loop is a search for the first candidate that passes the test. *)
Lemma solve_loop_safe (g y p : Z) (candidates rest : list Z) :
  p <> 0 -> Forall (fun x => 0 <= x /\ bigint_safe (g ^ x)) candidates ->
  solve_loop (candidates ++ rest) g y p
  = match List.find (dlog_test g y p) candidates with
    | Some x => Ok (Some x)
    | None => solve_loop rest g y p
    end.
Proof.
  intros Hp. induction candidates as [| x cs IH]; intros Hall; [reflexivity |].
  apply Forall_cons in Hall as [[Hx Hsafe] Hrest].
  cbn [app solve_loop List.find]. unfold BigInt. rewrite bigint_pow_safe by assumption.
  unfold bigint_rem, dlog_test. cbn.
  destruct (Z.eqb_spec p 0) as [H0 | _]; [contradiction |]. cbn.
  destruct (Z.rem (g ^ x) p =? y); [reflexivity | now apply IH].
Qed.

(** The largest power the loop can meet is [g ** (p - 1)]. *)
Lemma candidates_safe (g n : Z) :
  bigint_safe (g ^ n) -> Forall (fun x => 0 <= x /\ bigint_safe (g ^ x)) (seqZ 1 n).
Proof.
  intros Hsafe. apply Forall_forall. intros x Hx. apply elem_of_seqZ in Hx.
  split; [lia |]. apply (bigint_safe_pow_le g g x n); [lia | lia | exact Hsafe].
Qed.

Lemma solve_find (g y p : Z) :
  bigint_safe (g ^ (p - 1)) ->
  solveDiscreteLogarithmBruteForce g y p
  = Ok (List.find (dlog_test g y p) (seqZ 1 (p - 1))).
Proof.
  intros Hsafe. unfold solveDiscreteLogarithmBruteForce, BigInt.
  destruct (Z_le_gt_dec p 1) as [Hle | Hgt].
  - rewrite seqZ_nil by lia. reflexivity.
  - rewrite <- (app_nil_r (seqZ 1 (p - 1))) at 1.
    rewrite solve_loop_safe by (try apply candidates_safe; try assumption; lia).
    now destruct (List.find _ _).
Qed.

(** Whatever the size of the powers: an exponent the loop returns passes the
    test, and the candidates before it were tested and fell through. *)
Lemma solve_loop_some (g y p x : Z) (candidates : list Z) :
  solve_loop candidates g y p = Ok (Some x) ->
  exists before after,
    candidates = before ++ x :: after /\
    dlog_test g y p x = true /\
    Forall (fun x' => dlog_test g y p x' = false) before.
Proof.
  induction candidates as [| c cs IH]; [discriminate |].
  cbn [solve_loop]. unfold BigInt.
  destruct (bigint_pow g c) as [pw |] eqn:Hpw; [| discriminate].
  apply bigint_pow_ok in Hpw as [Hc ->].
  unfold bigint_rem. destruct (Z.eqb_spec p 0) as [H0 | _]; [discriminate |].
  cbn [mbind result_bind].
  destruct (Z.rem (g ^ c) p =? y) eqn:Htest.
  - intros [= <-]. exists [], cs. split; [reflexivity |]. split; [exact Htest | constructor].
  - intros Hrest. destruct (IH Hrest) as (before & after & -> & Hx & Hall).
    exists (c :: before), after. split; [reflexivity |]. split; [exact Hx |].
    constructor; [exact Htest | exact Hall].
Qed.

(** For a modulus up to 2^53, the range in which the loop counter is exact,
    and powers of [g] that stay clear of the maximum BigInt size up to the
    exponent [p - 1], the solver does not throw, and it returns [null]
    exactly when no exponent from 1 to [p - 1] gives [y]; for [p <= 1] there
    is no such exponent. *)
Theorem solveDiscreteLogarithm_null (g y p : Z) :
  p <= 2 ^ 53 -> bigint_safe (g ^ (p - 1)) ->
  exists r, solveDiscreteLogarithmBruteForce g y p = Ok r /\
            (r = None <-> forall x, 1 <= x < p -> Z.rem (g ^ x) p <> y).
Proof.
  intros _ Hsafe. rewrite solve_find by assumption. eexists. split; [reflexivity |]. split.
  - intros Hnone x Hx.
    pose proof (find_none _ _ Hnone x) as Hx'. unfold dlog_test in Hx'.
    apply Z.eqb_neq, Hx', list_elem_of_In, elem_of_seqZ. lia.
  - intros Hall. destruct (List.find _ _) as [x |] eqn:Hfind; [| reflexivity].
    apply find_some in Hfind as [Hin Hx].
    apply list_elem_of_In, elem_of_seqZ in Hin. apply Z.eqb_eq in Hx.
    exfalso. apply (Hall x); [lia | exact Hx].
Qed.

Lemma solveDiscreteLogarithm_null_witness :
  exists r, solveDiscreteLogarithmBruteForce 5 8 23 = Ok r /\
            (r = None <-> forall x, 1 <= x < 23 -> Z.rem (5 ^ x) 23 <> 8).
Proof. apply (solveDiscreteLogarithm_null 5 8 23); [lia | vm_compute; reflexivity]. Defined.

(** When the solver returns an exponent, for a modulus up to 2^53, it is the
    least exponent from 1 to [p - 1] that gives [y]. *)
Theorem solveDiscreteLogarithm_least (g y p x : Z) :
  p <= 2 ^ 53 ->
  solveDiscreteLogarithmBruteForce g y p = Ok (Some x) ->
  1 <= x < p /\ Z.rem (g ^ x) p = y /\
  (forall x', 1 <= x' < x -> Z.rem (g ^ x') p <> y).
Proof.
  intros _ Hsolve. unfold solveDiscreteLogarithmBruteForce, BigInt in Hsolve.
  apply solve_loop_some in Hsolve as (before & after & Hsplit & Hx & Hbefore).
  assert (Hpos : seqZ 1 (p - 1) !! length before = Some x)
    by (rewrite Hsplit; apply list_lookup_middle; reflexivity).
  apply lookup_seqZ in Hpos as [Hxval Hlen].
  split; [lia |]. split; [now apply Z.eqb_eq |].
  intros x' Hx'. apply Z.eqb_neq.
  assert (Hin : seqZ 1 (p - 1) !! Z.to_nat (x' - 1) = Some x')
    by (apply lookup_seqZ; lia).
  rewrite Hsplit, lookup_app_l in Hin by lia.
  rewrite Forall_forall in Hbefore. apply Hbefore.
  eapply list_elem_of_lookup_2, Hin.
Qed.

Lemma solveDiscreteLogarithm_least_witness :
  1 <= 6 < 23 /\ Z.rem (5 ^ 6) 23 = 8 /\
  (forall x', 1 <= x' < 6 -> Z.rem (5 ^ x') 23 <> 8).
Proof. apply (solveDiscreteLogarithm_least 5 8 23 6); [lia | reflexivity]. Defined.

(** The exponent found for a power of [g]: the search stops at [a] at the
    latest, so only the powers up to [g ** a] are evaluated. *)
Lemma solve_power (g a p : Z) :
  0 <= g -> 1 <= a < p -> bigint_safe (g ^ a) ->
  exists x, solveDiscreteLogarithmBruteForce g (g ^ a mod p) p = Ok (Some x) /\
            1 <= x <= a /\ g ^ x mod p = g ^ a mod p.
Proof.
  intros Hg Ha Hsafe.
  assert (Hmod : forall x, 0 <= x -> Z.rem (g ^ x) p = g ^ x mod p)
    by (intros x Hx; apply rem_is_mod; [apply Z.pow_nonneg |]; lia).
  unfold solveDiscreteLogarithmBruteForce, BigInt.
  replace (p - 1) with (a + (p - 1 - a)) by lia.
  rewrite seqZ_app by lia.
  rewrite solve_loop_safe by (try apply candidates_safe; try assumption; lia).
  destruct (List.find _ _) as [x |] eqn:Hfind.
  - exists x. split; [reflexivity |].
    apply find_some in Hfind as [Hin Htest].
    apply list_elem_of_In, elem_of_seqZ in Hin. apply Z.eqb_eq in Htest.
    rewrite Hmod in Htest by lia. split; [lia | exact Htest].
  - exfalso. pose proof (find_none _ _ Hfind a) as Hfalse.
    unfold dlog_test in Hfalse. rewrite Hmod in Hfalse by lia.
    rewrite Z.eqb_refl in Hfalse.
    discriminate Hfalse. apply list_elem_of_In, elem_of_seqZ. lia.
Qed.

End DiscreteLog.

(** ** Errors and composition of the exponentiation scripts *)

Section ExponentiationErrors.
Import ModularArithmetic DiffieHellman DiscreteLogarithm.


(** [diffieHellmanExchange] throws a [RangeError] for a zero modulus and for
    a negative private number; for a modulus other than 0, private numbers
    [>= 0] and powers that stay clear of the maximum BigInt size it
    returns. *)
Theorem diffieHellmanExchange_throws (p g a b : Z) :
  (p = 0 \/ a < 0 \/ b < 0 -> diffieHellmanExchange p g a b = Throw RangeError) /\
  (p <> 0 -> 0 <= a -> 0 <= b ->
   bigint_safe (Z.max (Z.abs g) (Z.abs p) ^ Z.max a b) ->
   exists r, diffieHellmanExchange p g a b = Ok r).
Proof.
  split.
  - intros Hbad. unfold diffieHellmanExchange, BigInt.
    destruct (pow_rem g a p) as [A | []] eqn:HA; [| reflexivity].
    cbn [mbind result_bind].
    destruct (pow_rem g b p) as [B | []] eqn:HB; [| reflexivity].
    exfalso. destruct Hbad as [Hp | [Ha | Hb]].
    + rewrite pow_rem_throws in HA by lia. discriminate.
    + rewrite pow_rem_throws in HA by lia. discriminate.
    + rewrite pow_rem_throws in HB by lia. discriminate.
  - intros Hp Ha Hb Hsafe.
    assert (Hpr : forall x e, Z.abs x <= Z.max (Z.abs g) (Z.abs p) -> 0 <= e <= Z.max a b ->
                              pow_rem x e p = Ok (Z.rem (x ^ e) p)).
    { intros x e Hx He. apply pow_rem_safe; try lia.
      apply (bigint_safe_pow_le x (Z.max (Z.abs g) (Z.abs p)) e (Z.max a b)); [lia | lia | exact Hsafe]. }
    assert (Hres : forall z, Z.abs (Z.rem z p) <= Z.max (Z.abs g) (Z.abs p))
      by (intros z; pose proof (Z.rem_bound_abs z p Hp); lia).
    unfold diffieHellmanExchange, BigInt.
    rewrite !Hpr by lia. cbn [mbind result_bind].
    rewrite !Hpr by (try apply Hres; lia). cbn [mbind result_bind].
    eexists. reflexivity.
Qed.

(** The brute-force solver breaks the exchange: from Alice's public key it
    finds an exponent [x], and [modularExponentiation] of Bob's public key
    to the power [x] is the shared secret.  The powers are to stay clear of
    the maximum BigInt size, as in [diffieHellman_value]. *)
Theorem discreteLogarithm_breaks_exchange (p g a b : Z) :
  0 <= g -> 1 <= a < p -> 0 <= b -> p <= 2 ^ 53 ->
  bigint_safe (Z.max g p ^ Z.max a b) ->
  exists r x,
    diffieHellmanExchange p g a b = Ok r /\
    solveDiscreteLogarithmBruteForce g (alicePublicKey r) p = Ok (Some x) /\
    1 <= x <= a /\
    modularExponentiation (bobPublicKey r) x p = Ok (sharedSecretAlice r).
Proof.
  intros Hg Ha Hb Hp Hsafe.
  assert (Hga : bigint_safe (g ^ a))
    by (apply (bigint_safe_pow_le g (Z.max g p) a (Z.max a b)); [lia | lia | exact Hsafe]).
  destruct (solve_power g a p Hg Ha Hga) as (x & Hsolve & Hx & Hpow).
  eexists. exists x. split; [apply diffieHellman_value; try assumption; lia |]. cbn.
  split; [exact Hsolve |]. split; [exact Hx |].
  pose proof (Z.mod_pos_bound (g ^ b) p ltac:(lia)) as HB.
  rewrite modularExponentiation_nonneg; try lia.
  - f_equal. rewrite !Z.mod_pow_l, <- !Z.pow_mul_r by lia.
    rewrite (Z.mul_comm b x), (Z.mul_comm b a), !Z.pow_mul_r by lia.
    rewrite <- (Z.mod_pow_l (g ^ x)), Hpow. now rewrite Z.mod_pow_l.
  - apply (bigint_safe_pow_le _ (Z.max g p) x (Z.max a b)); [lia | lia | exact Hsafe].
Qed.

Lemma discreteLogarithm_breaks_exchange_witness :
  exists r x,
    diffieHellmanExchange 23 5 6 15 = Ok r /\
    solveDiscreteLogarithmBruteForce 5 (alicePublicKey r) 23 = Ok (Some x) /\
    1 <= x <= 6 /\
    modularExponentiation (bobPublicKey r) x 23 = Ok (sharedSecretAlice r).
Proof.
  apply (discreteLogarithm_breaks_exchange 23 5 6 15); try lia. vm_compute. reflexivity.
Defined.

Lemma diffieHellman_secrets_agree_witness :
  exists r, diffieHellmanExchange 23 5 6 15 = Ok r /\ sharedSecretAlice r = sharedSecretBob r.
Proof.
  apply (diffieHellman_secrets_agree 23 5 6 15); try lia. vm_compute. reflexivity.
Defined.

End ExponentiationErrors.

(** ** More on the XOR cipher *)

Section XorCipherMore.
Import Chapter2.

(** The ciphertext is a string of the length of the message, whatever the
    key. *)
Theorem encryptSymmetric_string (message key : list Z) :
  length (encryptSymmetric message key) = length message /\
  Forall code_unit (encryptSymmetric message key).
Proof.
  split; [apply encryptSymmetric_length |].
  unfold encryptSymmetric. apply Forall_fmap, Forall_forall. intros i _.
  unfold fromCharCode, code_unit. cbn. apply Z.mod_pos_bound. lia.
Qed.

Lemma encryptSymmetric_empty_key_witness :
  encryptSymmetric [72; 105] [] = [72; 105].
Proof.
  apply (encryptSymmetric_empty_key [72; 105]).
  repeat constructor; unfold code_unit; lia.
Defined.

(** Known plaintext gives the key away: encrypting the ciphertext with the
    message as key returns the key, for a key no longer than the message. *)
Theorem encryptSymmetric_reveals_key (message key : list Z) :
  Forall code_unit message -> Forall code_unit key ->
  (0 < length key <= length message)%nat ->
  take (length key) (encryptSymmetric (encryptSymmetric message key) message) = key.
Proof.
  intros Hmsg Hkey Hlen. apply list_eq. intros i.
  destruct (key !! i) as [k |] eqn:Hk.
  - pose proof (lookup_lt_Some _ _ _ Hk) as Hi.
    rewrite lookup_take_lt by exact Hi.
    destruct (lookup_lt_is_Some_2 message i ltac:(lia)) as [m Hm].
    rewrite (encryptSymmetric_lookup _ _ i _ (encryptSymmetric_lookup _ _ i m Hm)).
    unfold key_index. rewrite !decide_False by lia.
    rewrite !Nat.mod_small by lia.
    unfold charCodeAt. rewrite Hk, Hm. cbn. f_equal.
    assert (Hcm : code_unit m) by exact (Forall_lookup_1 _ _ _ _ Hmsg Hm).
    assert (Hck : code_unit k) by exact (Forall_lookup_1 _ _ _ _ Hkey Hk).
    rewrite (fromCharCode_code_unit (Z.lxor m k)) by now apply code_unit_lxor.
    rewrite (Z.lxor_comm m k), Z.lxor_assoc, Z.lxor_nilpotent, Z.lxor_0_r.
    now apply fromCharCode_code_unit.
  - apply lookup_ge_None. apply lookup_ge_None in Hk.
    rewrite length_take. lia.
Qed.

Lemma encryptSymmetric_reveals_key_witness :
  take (length [115; 117])
       (encryptSymmetric (encryptSymmetric [72; 101; 108] [115; 117]) [72; 101; 108])
  = [115; 117].
Proof.
  apply (encryptSymmetric_reveals_key [72; 101; 108] [115; 117]).
  - repeat constructor; unfold code_unit; lia.
  - repeat constructor; unfold code_unit; lia.
  - cbn. lia.
Defined.

End XorCipherMore.

(** ** More on the chapter-11 RSA *)

Section RSAChapter11More.
Import Chapter11.

(** With the pair generated from 61 and 53, decrypting the encryption of a
    message [M >= 0] returns [M mod 3233]: [M] itself below the modulus, and
    not [M] from the modulus on.  [M] is a number, hence below 2^1024, and
    its 17th power is far from the maximum BigInt size. *)
Theorem chapter11_roundtrip_mod (M : Z) :
  0 <= M < 2 ^ 1024 ->
  let keys := generateRSAKeyPair p q in
  (c ← encryptRSA M (publicKey keys); decryptRSA c (privateKey keys)) = Ok (M mod 3233).
Proof.
  intros HM. cbv zeta. unfold encryptRSA, decryptRSA, BigInt.
  change (PublicKey.e (publicKey (generateRSAKeyPair p q))) with 17.
  change (PublicKey.n (publicKey (generateRSAKeyPair p q))) with 3233.
  change (PrivateKey.d (privateKey (generateRSAKeyPair p q))) with 2753.
  change (PrivateKey.n (privateKey (generateRSAKeyPair p q))) with 3233.
  rewrite rsa_pipeline; try lia.
  - f_equal.
    rewrite (modPow_spec M) by lia. rewrite <- Z.mod_pow_l.
    rewrite <- (modPow_spec (M mod 3233)) by lia.
    apply roundtrip_all_spec; [vm_compute; reflexivity |].
    apply Z.mod_pos_bound. lia.
  - apply (bigint_safe_pow_le M (2 ^ 1024) 17 17); [lia | lia |].
    apply bigint_safe_pow_bound; [lia | vm_compute; reflexivity].
  - apply bigint_safe_pow_bound; [lia | vm_compute; reflexivity].
Qed.

Lemma chapter11_roundtrip_mod_witness :
  let keys := generateRSAKeyPair p q in
  (c ← encryptRSA 5000 (publicKey keys); decryptRSA c (privateKey keys)) = Ok (5000 mod 3233).
Proof. apply (chapter11_roundtrip_mod 5000). lia. Defined.

End RSAChapter11More.

(** ** More on [modularInverse] *)

Section ModularInverseMore.
Import ECDH.

(** The result depends on the residue of [n] only: a negative [n] is
    normalised first. *)
Theorem modularInverse_residue (n p k : Z) :
  0 < p <= 94906265 -> modularInverse (n + k * p) p = modularInverse n p.
Proof.
  intros Hp. rewrite !modularInverse_search by assumption.
  f_equal. apply find_ext_in. intros x _.
  replace ((n + k * p) * x) with (n * x + (k * x) * p) by ring.
  now rewrite Z_mod_plus_full.
Qed.

Lemma modularInverse_residue_witness : modularInverse (3 + (-1) * 23) 23 = modularInverse 3 23.
Proof. apply (modularInverse_residue 3 23 (-1)). lia. Defined.

Lemma modularInverse_found (a n : Z) :
  2 <= n <= 94906265 -> Z.gcd a n = 1 ->
  1 <= modularInverse a n < n /\ (a * modularInverse a n) mod n = 1.
Proof.
  intros Hn Hg. rewrite modularInverse_search by lia.
  destruct (List.find _ _) as [x |] eqn:Hfind; cbn.
  - apply find_some in Hfind as [Hin Hx].
    apply list_elem_of_In, elem_of_seqZ in Hin. apply Z.eqb_eq in Hx. lia.
  - destruct (coprime_inverse a n ltac:(lia) Hg) as (x & Hx & Hax).
    pose proof (find_none _ _ Hfind x) as Hnone. cbv beta in Hnone.
    rewrite Hax in Hnone. discriminate Hnone.
    apply list_elem_of_In, elem_of_seqZ. lia.
Qed.

(** Inverting twice gives the residue back. *)
Theorem modularInverse_involutive (a n : Z) :
  2 <= n <= 94906265 -> Z.gcd a n = 1 ->
  modularInverse (modularInverse a n) n = a mod n.
Proof.
  intros Hn Hg.
  destruct (modularInverse_found a n Hn Hg) as [Hd Had].
  assert (Hgd : Z.gcd (modularInverse a n) n = 1).
  { apply (inverse_coprime _ a n); [lia |]. now rewrite Z.mul_comm. }
  destruct (modularInverse_found (modularInverse a n) n Hn Hgd) as [Hd' Hdd'].
  pose proof (Z.mod_pos_bound a n ltac:(lia)) as Hb.
  assert (H1 : 1 mod n = 1) by (apply Z.mod_small; lia).
  symmetry. apply (inverse_unique (modularInverse a n) _ _ n); try lia.
  rewrite Zmult_mod_idemp_r, Z.mul_comm. congruence.
Qed.

Lemma modularInverse_involutive_witness :
  modularInverse (modularInverse 13 288) 288 = 13 mod 288.
Proof. apply (modularInverse_involutive 13 288); [lia | reflexivity]. Defined.

End ModularInverseMore.

(** ** The simple hash *)

Section SimpleHash.
Import Chapter3.

Lemma simpleHash_acc (input : list Z) : simpleHash input = toUint32 (hash_acc input 0).
Proof. reflexivity. Qed.

Lemma toInt32_range (x : Z) : - 2 ^ 31 <= toInt32 x < 2 ^ 31.
Proof.
  unfold toInt32. pose proof (Z.mod_pos_bound (x + 2 ^ 31) (2 ^ 32) ltac:(lia)). lia.
Qed.

Lemma toInt32_mod (x : Z) : toInt32 x mod 2 ^ 32 = x mod 2 ^ 32.
Proof.
  unfold toInt32.
  rewrite Zminus_mod_idemp_l. f_equal. lia.
Qed.

(** One turn of the loop, modulo 2^32: no rounding occurs, the accumulator
    being a signed 32-bit integer and the character a code unit. *)
Lemma hash_step_mod (hash c : Z) :
  - 2 ^ 31 <= hash < 2 ^ 31 -> code_unit c ->
  toInt32 (fadd (fmul hash 31) c) mod 2 ^ 32 = (hash * 31 + c) mod 2 ^ 32.
Proof.
  intros Hh Hc. unfold code_unit in Hc. rewrite toInt32_mod.
  unfold fadd, fmul.
  rewrite (round53_exact (hash * 31)) by lia.
  rewrite round53_exact by lia. reflexivity.
Qed.

Lemma hash_acc_mod (input : list Z) :
  Forall code_unit input ->
  forall hash, - 2 ^ 31 <= hash < 2 ^ 31 ->
  hash_acc input hash mod 2 ^ 32 = (hash * 31 ^ Z.of_nat (length input) + hash_poly input) mod 2 ^ 32.
Proof.
  induction 1 as [| c input Hc Hinput IH]; intros hash Hh.
  - cbn. f_equal. lia.
  - cbn [hash_acc fold_left]. fold (hash_acc input (toInt32 (fadd (fmul hash 31) c))).
    rewrite IH by apply toInt32_range.
    cbn [hash_poly].
    rewrite <- Zplus_mod_idemp_l, <- Zmult_mod_idemp_l, hash_step_mod by assumption.
    rewrite Zmult_mod_idemp_l, Zplus_mod_idemp_l. f_equal.
    rewrite length_cons, Nat2Z.inj_succ, Z.pow_succ_r by lia. ring.
Qed.

Lemma simpleHash_polynomial_aux (input : list Z) :
  Forall code_unit input -> simpleHash input = hash_poly input mod 2 ^ 32.
Proof.
  intros Hinput. rewrite simpleHash_acc. unfold toUint32.
  rewrite (hash_acc_mod input Hinput 0) by lia. f_equal.
Qed.

(** The hash is the value at 31 of the polynomial whose coefficients are the
    code units, reduced modulo 2^32: the 32-bit wrap-around of every turn
    amounts to one reduction at the end, and the result lies in [0, 2^32). *)
Theorem simpleHash_polynomial (input : list Z) :
  Forall code_unit input ->
  simpleHash input = hash_poly input mod 2 ^ 32 /\ 0 <= simpleHash input < 2 ^ 32.
Proof.
  intros Hinput. split; [now apply simpleHash_polynomial_aux |].
  rewrite simpleHash_acc. apply Z.mod_pos_bound. lia.
Qed.

Lemma simpleHash_polynomial_witness :
  simpleHash [72; 105] = hash_poly [72; 105] mod 2 ^ 32 /\ 0 <= simpleHash [72; 105] < 2 ^ 32.
Proof.
  apply (simpleHash_polynomial [72; 105]).
  repeat constructor; unfold code_unit; lia.
Defined.

Lemma hash_poly_app (s t : list Z) :
  hash_poly (s ++ t) = hash_poly s * 31 ^ Z.of_nat (length t) + hash_poly t.
Proof.
  induction s as [| c s IH]; [cbn; lia |].
  cbn [app hash_poly]. rewrite IH, length_app, Nat2Z.inj_add, Z.pow_add_r by lia. ring.
Qed.

(** The hash of a concatenation follows from the hashes of the parts and
    the length of the second one. *)
Theorem simpleHash_app (s t : list Z) :
  Forall code_unit s -> Forall code_unit t ->
  simpleHash (s ++ t)
  = (simpleHash s * 31 ^ Z.of_nat (length t) + simpleHash t) mod 2 ^ 32.
Proof.
  intros Hs Ht.
  rewrite !simpleHash_polynomial_aux by (try apply Forall_app; auto).
  rewrite hash_poly_app, Zplus_mod_idemp_r.
  rewrite <- (Zplus_mod_idemp_l (hash_poly s mod 2 ^ 32 * _)).
  now rewrite Zmult_mod_idemp_l, Zplus_mod_idemp_l.
Qed.

Lemma simpleHash_app_witness :
  simpleHash ([72] ++ [105])
  = (simpleHash [72] * 31 ^ Z.of_nat (length [105]) + simpleHash [105]) mod 2 ^ 32.
Proof.
  apply (simpleHash_app [72] [105]); repeat constructor; unfold code_unit; lia.
Defined.

(** Collisions come in families: replacing "Aa" by "BB" anywhere in a
    string leaves its hash unchanged. *)
Theorem simpleHash_collision (s t : list Z) :
  Forall code_unit s -> Forall code_unit t ->
  simpleHash (s ++ [65; 97] ++ t) = simpleHash (s ++ [66; 66] ++ t).
Proof.
  intros Hs Ht.
  assert (Hu : forall u v, code_unit u -> code_unit v -> Forall code_unit (s ++ [u; v] ++ t)).
  { intros u v Hu Hv. apply Forall_app. split; [exact Hs |].
    apply Forall_app. split; [| exact Ht].
    constructor; [exact Hu | constructor; [exact Hv | constructor]]. }
  rewrite !simpleHash_polynomial_aux by (apply Hu; unfold code_unit; lia).
  rewrite !hash_poly_app. reflexivity.
Qed.

Lemma simpleHash_collision_witness :
  simpleHash ([120] ++ [65; 97] ++ [121]) = simpleHash ([120] ++ [66; 66] ++ [121]).
Proof.
  apply (simpleHash_collision [120] [121]); repeat constructor; unfold code_unit; lia.
Defined.

End SimpleHash.

(** ** Signatures *)

Section Signatures.
Import Chapter2 Chapter3 Chapter4.

Lemma verifySignature_value (message : list Z) (signature : Z) (publicKey : PublicKey.t) :
  0 <= PublicKey.e publicKey -> PublicKey.n publicKey <> 0 ->
  bigint_safe (signature ^ PublicKey.e publicKey) ->
  verifySignature message signature publicKey
  = Ok (Number (Z.rem (signature ^ PublicKey.e publicKey) (PublicKey.n publicKey))
        =? simpleHash message).
Proof.
  intros He Hn Hsafe. unfold verifySignature, BigInt.
  rewrite bigint_pow_safe by assumption. unfold bigint_rem. cbn.
  destruct (Z.eqb_spec (PublicKey.n publicKey) 0) as [H0 | _]; [contradiction |].
  reflexivity.
Qed.


(** "Hello Bob, this is Alice.", the message the script signs. *)
Example script_message_hash :
  simpleHash [72; 101; 108; 108; 111; 32; 66; 111; 98; 44; 32; 116; 104; 105; 115; 32;
              105; 115; 32; 65; 108; 105; 99; 101; 46] = 2455490589.
Proof. vm_compute. reflexivity. Qed.


(** The signature the script computes for its message is rejected by its own
    verifier, where the script expects [true]. *)
Example script_signature_rejected :
  let message := [72; 101; 108; 108; 111; 32; 66; 111; 98; 44; 32; 116; 104; 105; 115; 32;
                  105; 115; 32; 65; 108; 105; 99; 101; 46] in
  let '(publicKey, privateKey) := generateAsymmetricKeyPair in
  (signature ← signMessage message privateKey; verifySignature message signature publicKey)
  = Ok false.
Proof. vm_compute. reflexivity. Qed.

(** Forgery without the private key: under every public key with a positive
    exponent, 0 is a valid signature of the empty message. *)
Theorem verifySignature_forgery (publicKey : PublicKey.t) :
  0 < PublicKey.e publicKey -> PublicKey.n publicKey <> 0 ->
  verifySignature [] 0 publicKey = Ok true.
Proof.
  intros He Hn. rewrite verifySignature_value; try lia.
  - rewrite Z.pow_0_l by lia. rewrite Z.rem_0_l by lia. reflexivity.
  - rewrite Z.pow_0_l by lia. now apply bigint_safe_small.
Qed.

Lemma verifySignature_forgery_witness :
  verifySignature [] 0 (fst generateAsymmetricKeyPair) = Ok true.
Proof. apply verifySignature_forgery; vm_compute; congruence. Defined.

End Signatures.

(** ** Merkle trees *)

Section Merkle.
Import MerkleTree.
Variable sha256 : list Z -> list Z.
Local Open Scope nat_scope.

Lemma duplicate_last_even (l : (list (list Z))) : length (duplicate_last l) mod 2 = 0.
Proof.
  unfold duplicate_last. destruct (Nat.eqb_spec (length l mod 2) 0) as [He | Ho]; [exact He |].
  rewrite length_app. cbn [length].
  pose proof (Nat.mod_upper_bound (length l) 2 ltac:(lia)).
  pose proof (Nat.div_mod_eq (length l) 2).
  replace (length l + 1) with (0 + (length l / 2 + 1) * 2) by lia.
  now rewrite Nat.Div0.mod_add.
Qed.

Lemma duplicate_last_length (l : (list (list Z))) :
  length (duplicate_last l) = length l + length l mod 2.
Proof.
  unfold duplicate_last. destruct (Nat.eqb_spec (length l mod 2) 0) as [He | Ho]; [lia |].
  rewrite length_app. cbn [length].
  pose proof (Nat.mod_upper_bound (length l) 2 ltac:(lia)). lia.
Qed.

Lemma duplicate_last_lookup (l : (list (list Z))) (i : nat) (h : list Z) :
  l !! i = Some h -> duplicate_last l !! i = Some h.
Proof.
  intros Hi. unfold duplicate_last. destruct (length l mod 2 =? 0); [exact Hi |].
  now apply lookup_app_l_Some.
Qed.

Lemma hash_pairs_length (l : (list (list Z))) :
  length (hash_pairs sha256 l) = (length l + 1) / 2.
Proof.
  enough (H : length (hash_pairs sha256 l) = (length l + 1) / 2 /\
              forall a, length (hash_pairs sha256 (a :: l)) = (length (a :: l) + 1) / 2)
    by apply H.
  induction l as [| b l [IH1 IH2]]; [split; reflexivity |].
  split; [apply IH2 |]. intros a. cbn [hash_pairs length]. rewrite IH1.
  replace (S (S (length l)) + 1) with (length l + 1 + 1 * 2) by lia.
  rewrite Nat.div_add by lia. lia.
Qed.

Lemma hash_pairs_lookup (j : nat) :
  forall (l : (list (list Z))) (a b : list Z),
  l !! (2 * j) = Some a -> l !! (2 * j + 1) = Some b ->
  hash_pairs sha256 l !! j = Some (sha256 (a ++ b)).
Proof.
  induction j as [| j IH]; intros l a b Ha Hb.
  - destruct l as [| a' [| b' rest]]; try discriminate.
    change (Some a' = Some a) in Ha. change (Some b' = Some b) in Hb.
    simplify_eq. reflexivity.
  - destruct l as [| a' [| b' rest]]; try discriminate.
    cbn [hash_pairs]. cbn [lookup list_lookup].
    apply IH.
    + replace (2 * S j) with (S (S (2 * j))) in Ha by lia. exact Ha.
    + replace (2 * S j + 1) with (S (S (2 * j + 1))) in Hb by lia. exact Hb.
Qed.

(** The levels pushed before the loop started stay in front. *)
Lemma build_loop_prefix (fuel : nat) :
  forall (pre : list (list (list Z))) (cur : (list (list Z))),
  build_loop sha256 fuel pre cur
  = (pre ++ (build_loop sha256 fuel [] cur).1, (build_loop sha256 fuel [] cur).2).
Proof.
  induction fuel as [| fuel IH]; intros pre cur; [reflexivity |].
  cbn [build_loop]. destruct (1 <? length cur); [| reflexivity].
  rewrite (IH (pre ++ _)), (IH ([] ++ _)). cbn. now rewrite <- app_assoc.
Qed.

Lemma next_level_shorter (cur : (list (list Z))) (fuel : nat) :
  1 < length cur -> length cur <= S fuel ->
  length (hash_pairs sha256 (duplicate_last cur)) <= fuel.
Proof.
  intros H1 Hf. rewrite hash_pairs_length, duplicate_last_length.
  pose proof (Nat.mod_upper_bound (length cur) 2 ltac:(lia)) as Hr.
  pose proof (Nat.div_mod_eq (length cur) 2) as Hq.
  assert (Hhalf : (length cur + length cur mod 2 + 1) / 2 = length cur / 2 + length cur mod 2).
  { symmetry. apply (Nat.div_unique _ 2 _ 1); lia. }
  lia.
Qed.

(** Fuel beyond the number of nodes is not used. *)
Lemma build_loop_fuel (fuel : nat) :
  forall (pre : list (list (list Z))) (cur : (list (list Z))), length cur <= fuel ->
  build_loop sha256 (S fuel) pre cur = build_loop sha256 fuel pre cur.
Proof.
  induction fuel as [| fuel IH]; intros pre cur Hlen.
  - cbn [build_loop]. destruct (Nat.ltb_spec 1 (length cur)); [lia | reflexivity].
  - cbn [build_loop]. destruct (Nat.ltb_spec 1 (length cur)) as [H1 | _]; [| reflexivity].
    apply IH. now apply next_level_shorter.
Qed.

Lemma build_loop_nonempty (fuel : nat) (cur : (list (list Z))) :
  (build_loop sha256 fuel [] cur).1 <> [].
Proof.
  destruct fuel as [| fuel]; cbn [build_loop]; [discriminate |].
  destruct (1 <? length cur); [| discriminate].
  rewrite build_loop_prefix. discriminate.
Qed.

Lemma merkleProof_cons (level : (list (list Z))) (upper : list (list (list Z))) (index : nat) :
  upper <> [] ->
  merkleProof (level :: upper) index
  = default undefined_text (level !! (if Nat.even index then S index else pred index))
    :: merkleProof upper (index / 2).
Proof. destruct upper; [congruence | reflexivity]. Qed.

(** One step up the tree: the node over position [i] of a level of even
    length is the hash the verifier computes from the node at [i] and its
    neighbour. *)
Lemma parent_lookup (level : (list (list Z))) (i : nat) (h : list Z) :
  length level mod 2 = 0 -> level !! i = Some h ->
  hash_pairs sha256 level !! (i / 2)
  = Some (if (frem (Z.of_nat i) 2 =? 0)%Z
          then sha256 (h ++ default undefined_text (level !! (if Nat.even i then S i else pred i)))
          else sha256 (default undefined_text (level !! (if Nat.even i then S i else pred i)) ++ h)).
Proof.
  intros Heven Hi. pose proof (lookup_lt_Some _ _ _ Hi) as Hlt.
  pose proof (Nat.div_mod_eq i 2) as Hdm.
  pose proof (Nat.div_mod_eq (length level) 2) as Hdl.
  pose proof (Nat.mod_upper_bound i 2 ltac:(lia)) as Hub.
  unfold frem. rewrite Z.rem_mod_nonneg by lia.
  replace (Z.of_nat i mod 2)%Z with (Z.of_nat (i mod 2))
    by (rewrite Nat2Z.inj_mod; reflexivity).
  destruct (Nat.eq_dec (i mod 2) 0) as [Hi0 | Hi1].
  - rewrite Hi0. cbn [Z.of_nat Z.eqb].
    assert (Hev : Nat.even i = true) by (apply Nat.even_spec; exists (i / 2); lia).
    rewrite Hev.
    destruct (lookup_lt_is_Some_2 level (S i) ltac:(lia)) as [s Hs].
    rewrite Hs. cbn [default from_option id].
    apply hash_pairs_lookup.
    + replace (2 * (i / 2)) with i by lia. exact Hi.
    + replace (2 * (i / 2) + 1) with (S i) by lia. exact Hs.
  - assert (Hm1 : i mod 2 = 1) by lia. rewrite Hm1. cbn [Z.of_nat Z.eqb Pos.of_succ_nat].
    assert (Hev : Nat.even i = false).
    { apply Bool.not_true_is_false. intros He. apply Nat.even_spec in He as [k Hk]. lia. }
    rewrite Hev.
    destruct (lookup_lt_is_Some_2 level (pred i) ltac:(lia)) as [s Hs].
    rewrite Hs. cbn [default from_option id].
    apply hash_pairs_lookup.
    + replace (2 * (i / 2)) with (pred i) by lia. exact Hs.
    + replace (2 * (i / 2) + 1) with i by lia. exact Hi.
Qed.

(** From any node of the first level, the verifier's loop over the
    neighbours on the path arrives at the single node of the last level. *)
Lemma path_to_root (fuel : nat) :
  forall (cur : (list (list Z))) (i : nat) (h : list Z),
  length cur <= fuel -> cur !! i = Some h ->
  (build_loop sha256 fuel [] cur).2
  = [verify_loop sha256 (merkleProof (build_loop sha256 fuel [] cur).1 i) h (Z.of_nat i)].
Proof.
  induction fuel as [| fuel IH]; intros cur i h Hlen Hi.
  - apply lookup_lt_Some in Hi. lia.
  - cbn [build_loop]. destruct (Nat.ltb_spec 1 (length cur)) as [H1 | H1].
    + rewrite build_loop_prefix. cbn [fst snd app].
      rewrite merkleProof_cons by apply build_loop_nonempty.
      cbn [verify_loop].
      pose proof (parent_lookup (duplicate_last cur) i h (duplicate_last_even cur)
                    (duplicate_last_lookup cur i h Hi)) as Hparent.
      rewrite (IH _ (i / 2) _ (next_level_shorter cur fuel H1 Hlen) Hparent).
      do 3 f_equal. rewrite Nat2Z.inj_div. reflexivity.
    + cbn [fst snd app]. destruct cur as [| h' [| ? ?]]; cbn in H1; try lia; try discriminate.
      destruct i; [| discriminate]. cbn in Hi. injection Hi as ->. reflexivity.
Qed.

(** Completeness: for every block of the input, the neighbours on its path
    through the tree [buildMerkleTree] returns form a proof that
    [verifyMerkleProof] accepts against the root. *)
Theorem merkle_proof_accepted (dataBlocks : (list (list Z))) (index : nat) (dataBlock : list Z) :
  dataBlocks !! index = Some dataBlock ->
  let m := buildMerkleTree sha256 dataBlocks in
  verifyMerkleProof sha256 dataBlock (root m) (merkleProof (tree m) index) (Z.of_nat index)
  = true.
Proof.
  intros Hblock. cbv zeta. unfold buildMerkleTree.
  destruct (Nat.eqb_spec (length dataBlocks) 0) as [H0 | _].
  { apply lookup_lt_Some in Hblock. lia. }
  assert (Hleaf : (sha256 <$> dataBlocks) !! index = Some (sha256 dataBlock))
    by now rewrite list_lookup_fmap, Hblock.
  pose proof (path_to_root (length (sha256 <$> dataBlocks)) _ index _ (le_n _) Hleaf) as Hpath.
  destruct (build_loop sha256 (length (sha256 <$> dataBlocks)) [] (sha256 <$> dataBlocks))
    as [tr fin]. cbn [fst snd] in Hpath. subst fin. cbn [tree root].
  unfold verifyMerkleProof. now apply bool_decide_eq_true.
Qed.

(** Two different starting hashes that the verifier's loop brings to the
    same value meet at some step [k]: there the running hashes still differ,
    and joined with the proof hash [s] of that step, on the same side, they
    have the same [sha256]. *)
Lemma verify_loop_collision (proof : (list (list Z))) :
  forall (h h' : list Z) (index : Z),
  verify_loop sha256 proof h index = verify_loop sha256 proof h' index ->
  h <> h' ->
  exists (k : nat) (s : list Z),
    proof !! k = Some s /\
    verify_loop sha256 (take k proof) h index <> verify_loop sha256 (take k proof) h' index /\
    (sha256 (verify_loop sha256 (take k proof) h index ++ s)
     = sha256 (verify_loop sha256 (take k proof) h' index ++ s) \/
     sha256 (s ++ verify_loop sha256 (take k proof) h index)
     = sha256 (s ++ verify_loop sha256 (take k proof) h' index)).
Proof.
  induction proof as [| s proof IH]; intros h h' index Heq Hne; [contradiction |].
  cbn [verify_loop] in Heq.
  destruct (frem index 2 =? 0)%Z eqn:Hparity.
  - destruct (decide (sha256 (h ++ s) = sha256 (h' ++ s))) as [Hsame | Hdiff].
    + exists 0%nat, s. split; [reflexivity |]. split; [exact Hne | left; exact Hsame].
    + destruct (IH _ _ _ Heq Hdiff) as (k & s' & Hk & Hne' & Hcol).
      exists (S k), s'. split; [exact Hk |].
      cbn [take verify_loop]. rewrite Hparity. split; [exact Hne' | exact Hcol].
  - destruct (decide (sha256 (s ++ h) = sha256 (s ++ h'))) as [Hsame | Hdiff].
    + exists 0%nat, s. split; [reflexivity |]. split; [exact Hne | right; exact Hsame].
    + destruct (IH _ _ _ Heq Hdiff) as (k & s' & Hk & Hne' & Hcol).
      exists (S k), s'. split; [exact Hk |].
      cbn [take verify_loop]. rewrite Hparity. split; [exact Hne' | exact Hcol].
Qed.

(** Binding: if two different blocks are accepted with the same root, proof
    and index, then [sha256] collides on two different strings that the two
    verifications hash at the same step: the two blocks themselves, or, at
    some step [k], the two running hashes joined with the proof hash of that
    step. *)
Theorem merkle_proof_binding (dataBlock dataBlock' rootHash : list Z) (proof : (list (list Z))) (index : Z) :
  verifyMerkleProof sha256 dataBlock rootHash proof index = true ->
  verifyMerkleProof sha256 dataBlock' rootHash proof index = true ->
  dataBlock <> dataBlock' ->
  exists u u',
    u <> u' /\ sha256 u = sha256 u' /\
    ((u = dataBlock /\ u' = dataBlock') \/
     exists (k : nat) (s : list Z),
       proof !! k = Some s /\
       (u = verify_loop sha256 (take k proof) (sha256 dataBlock) index ++ s /\
        u' = verify_loop sha256 (take k proof) (sha256 dataBlock') index ++ s \/
        u = s ++ verify_loop sha256 (take k proof) (sha256 dataBlock) index /\
        u' = s ++ verify_loop sha256 (take k proof) (sha256 dataBlock') index)).
Proof.
  unfold verifyMerkleProof. intros H1 H2 Hne.
  apply bool_decide_eq_true in H1. apply bool_decide_eq_true in H2.
  destruct (decide (sha256 dataBlock = sha256 dataBlock')) as [Hsame | Hdiff].
  - exists dataBlock, dataBlock'. split; [exact Hne |]. split; [exact Hsame |]. now left.
  - destruct (verify_loop_collision proof (sha256 dataBlock) (sha256 dataBlock') index)
      as (k & s & Hk & Hne' & [Hcol | Hcol]); [congruence | exact Hdiff | |].
    + eexists _, _. split; [| split; [exact Hcol |]].
      * intros Happ. apply Hne'. exact (app_inv_tail s _ _ Happ).
      * right. exists k, s. split; [exact Hk |]. left. split; reflexivity.
    + eexists _, _. split; [| split; [exact Hcol |]].
      * intros Happ. apply Hne'. exact (app_inv_head s _ _ Happ).
      * right. exists k, s. split; [exact Hk |]. right. split; reflexivity.
Qed.

Lemma duplicate_last_odd (l : (list (list Z))) (h : list Z) :
  length l mod 2 <> 0 -> last l = Some h -> duplicate_last l = l ++ [h].
Proof.
  intros Hodd Hlast. unfold duplicate_last.
  destruct (Nat.eqb_spec (length l mod 2) 0) as [He | _]; [contradiction |].
  now rewrite Hlast.
Qed.

Lemma duplicate_last_even_id (l : (list (list Z))) : length l mod 2 = 0 -> duplicate_last l = l.
Proof. intros He. unfold duplicate_last. now rewrite He. Qed.

(** The stored tree repeats the last block of an odd input: the data with
    that block appended once more has the same tree and the same root. *)
Theorem merkle_duplicate_last (dataBlocks : (list (list Z))) (dataBlock : list Z) :
  1 < length dataBlocks -> length dataBlocks mod 2 = 1 ->
  last dataBlocks = Some dataBlock ->
  buildMerkleTree sha256 (dataBlocks ++ [dataBlock]) = buildMerkleTree sha256 dataBlocks.
Proof.
  intros Hlen Hodd Hlast. unfold buildMerkleTree.
  rewrite length_app. cbn [length].
  destruct (Nat.eqb_spec (length dataBlocks + 1) 0) as [? | _]; [lia |].
  destruct (Nat.eqb_spec (length dataBlocks) 0) as [? | _]; [lia |].
  rewrite fmap_app. cbn [fmap list_fmap].
  rewrite length_app, length_fmap. cbn [length].
  set (leaves := sha256 <$> dataBlocks).
  assert (Hleaves : length leaves = length dataBlocks) by apply length_fmap.
  assert (Hlastl : last leaves = Some (sha256 dataBlock))
    by (unfold leaves; now rewrite fmap_last, Hlast).
  assert (Hsame : build_loop sha256 (length dataBlocks + 1) [] (leaves ++ [sha256 dataBlock])
                  = build_loop sha256 (length dataBlocks) [] leaves).
  { replace (length dataBlocks + 1) with (S (length dataBlocks)) by lia.
    destruct (length dataBlocks) as [| n] eqn:Hn; [lia |].
    cbn [build_loop].
    rewrite length_app, Hleaves. cbn [length].
    destruct (Nat.ltb_spec 1 (S n + 1)) as [_ | ?]; [| lia].
    destruct (Nat.ltb_spec 1 (S n)) as [_ | ?]; [| lia].
    rewrite (duplicate_last_odd leaves (sha256 dataBlock)) by (rewrite ?Hleaves; auto; lia).
    rewrite duplicate_last_even_id.
    - apply build_loop_fuel.
      rewrite hash_pairs_length, length_app, Hleaves. cbn [length].
      pose proof (Nat.div_mod_eq (S n) 2).
      assert ((S n + 1 + 1) / 2 = S n / 2 + 1)
        by (symmetry; apply (Nat.div_unique _ 2 _ 1); lia).
      lia.
    - rewrite length_app, Hleaves. cbn [length].
      pose proof (Nat.div_mod_eq (S n) 2).
      symmetry. apply (Nat.mod_unique _ 2 (S n / 2 + 1)); lia. }
  now rewrite Hsame.
Qed.

(** The leaf level stored in the tree is the list of the block hashes when
    their number is even, and that list followed by one more copy of the
    hash of the last block when it is odd. *)
Theorem merkle_leaf_level (dataBlocks : (list (list Z))) :
  1 < length dataBlocks ->
  (length dataBlocks mod 2 = 0 ->
   tree (buildMerkleTree sha256 dataBlocks) !! 0 = Some (sha256 <$> dataBlocks)) /\
  (forall dataBlock, length dataBlocks mod 2 = 1 -> last dataBlocks = Some dataBlock ->
   tree (buildMerkleTree sha256 dataBlocks) !! 0
   = Some ((sha256 <$> dataBlocks) ++ [sha256 dataBlock])).
Proof.
  intros Hlen.
  assert (Hlevel : tree (buildMerkleTree sha256 dataBlocks) !! 0
                   = Some (duplicate_last (sha256 <$> dataBlocks))).
  { unfold buildMerkleTree.
    destruct (Nat.eqb_spec (length dataBlocks) 0) as [? | _]; [lia |].
    rewrite length_fmap.
    destruct (length dataBlocks) as [| n] eqn:Hn; [lia |].
    cbn [build_loop]. rewrite length_fmap, Hn.
    destruct (Nat.ltb_spec 1 (S n)) as [_ | ?]; [| lia].
    rewrite build_loop_prefix. cbn [app].
    destruct (build_loop sha256 n [] _) as [tr fin]. reflexivity. }
  rewrite Hlevel. split.
  - intros Heven. now rewrite duplicate_last_even_id by (now rewrite length_fmap).
  - intros dataBlock Hodd Hlast.
    rewrite (duplicate_last_odd _ (sha256 dataBlock)); [reflexivity | |].
    + rewrite length_fmap. lia.
    + now rewrite fmap_last, Hlast.
Qed.

End Merkle.

Lemma merkle_proof_accepted_witness :
  let sha256 := fun s : list Z => 0 :: s in
  let m := MerkleTree.buildMerkleTree sha256 [[1]; [2]; [3]] in
  MerkleTree.verifyMerkleProof sha256 [3] (MerkleTree.root m)
    (MerkleTree.merkleProof (MerkleTree.tree m) 2) (Z.of_nat 2) = true.
Proof.
  exact (merkle_proof_accepted (fun s : list Z => 0 :: s) [[1]; [2]; [3]] 2 [3] eq_refl).
Defined.

Lemma merkle_proof_binding_witness :
  let sha256 := fun s : list Z => take 1 s in
  exists u u',
    u <> u' /\ sha256 u = sha256 u' /\
    ((u = [1; 2] /\ u' = [1; 3]) \/
     exists (k : nat) (s : list Z),
       [[7]] !! k = Some s /\
       (u = MerkleTree.verify_loop sha256 (take k [[7]]) (sha256 [1; 2]) 0 ++ s /\
        u' = MerkleTree.verify_loop sha256 (take k [[7]]) (sha256 [1; 3]) 0 ++ s \/
        u = s ++ MerkleTree.verify_loop sha256 (take k [[7]]) (sha256 [1; 2]) 0 /\
        u' = s ++ MerkleTree.verify_loop sha256 (take k [[7]]) (sha256 [1; 3]) 0)).
Proof.
  intros sha256. apply (merkle_proof_binding sha256 [1; 2] [1; 3] [1] [[7]] 0).
  - reflexivity.
  - reflexivity.
  - discriminate.
Defined.

Lemma merkle_duplicate_last_witness :
  MerkleTree.buildMerkleTree (fun s : list Z => 0 :: s) ([[1]; [2]; [3]] ++ [[3]])
  = MerkleTree.buildMerkleTree (fun s : list Z => 0 :: s) [[1]; [2]; [3]].
Proof.
  apply (merkle_duplicate_last (fun s : list Z => 0 :: s) [[1]; [2]; [3]] [3]).
  - cbn. lia.
  - reflexivity.
  - reflexivity.
Defined.

Lemma merkle_leaf_level_witness :
  let sha256 := fun s : list Z => 0 :: s in
  ((length [[1]; [2]; [3]] mod 2 = 0)%nat ->
   MerkleTree.tree (MerkleTree.buildMerkleTree sha256 [[1]; [2]; [3]]) !! 0%nat
   = Some (sha256 <$> [[1]; [2]; [3]])) /\
  (forall dataBlock, (length [[1]; [2]; [3]] mod 2 = 1)%nat ->
   last [[1]; [2]; [3]] = Some dataBlock ->
   MerkleTree.tree (MerkleTree.buildMerkleTree sha256 [[1]; [2]; [3]]) !! 0%nat
   = Some ((sha256 <$> [[1]; [2]; [3]]) ++ [sha256 dataBlock])).
Proof.
  intros sha256. apply (merkle_leaf_level sha256 [[1]; [2]; [3]]). cbn. lia.
Defined.

(** ** Every permutation is reachable by the shuffle *)

Section YatesShuffleReach.
Import Chapter13.
Context {T : Type} (undefined : T).
Local Open Scope nat_scope.

Lemma swap_insert (array : list T) (i j : nat) (ai aj : T) :
  array !! i = Some ai -> array !! j = Some aj ->
  swap undefined array i j = <[j := ai]> (<[i := aj]> array).
Proof.
  intros Hi Hj. unfold swap, array_get. rewrite Hi, Hj. cbn [default from_option id].
  pose proof (lookup_lt_Some _ _ _ Hi) as Hilt.
  pose proof (lookup_lt_Some _ _ _ Hj) as Hjlt.
  rewrite (array_set_in_range undefined array i aj Hilt).
  rewrite array_set_in_range by (now rewrite length_insert).
  reflexivity.
Qed.

(** A swap inside a prefix leaves the rest of the array alone. *)
Lemma swap_app (array rest : list T) (i j : nat) :
  i < length array -> j < length array ->
  swap undefined (array ++ rest) i j = swap undefined array i j ++ rest.
Proof.
  intros Hi Hj.
  destruct (lookup_lt_is_Some_2 array i Hi) as [ai Hai].
  destruct (lookup_lt_is_Some_2 array j Hj) as [aj Haj].
  rewrite (swap_insert (array ++ rest) i j ai aj)
    by (rewrite lookup_app_l by assumption; assumption).
  rewrite (swap_insert array i j ai aj) by assumption.
  rewrite insert_app_l by assumption.
  rewrite insert_app_l by (now rewrite length_insert).
  reflexivity.
Qed.

Lemma swap_length (array : list T) (i j : nat) :
  i < length array -> j < length array -> length (swap undefined array i j) = length array.
Proof.
  intros Hi Hj.
  destruct (lookup_lt_is_Some_2 array i Hi) as [ai Hai].
  destruct (lookup_lt_is_Some_2 array j Hj) as [aj Haj].
  rewrite (swap_insert array i j ai aj) by assumption. now rewrite !length_insert.
Qed.

Lemma shuffle_from_app (randomInt : nat -> nat) (i : nat) :
  (forall max, 0 < max -> randomInt max < max) ->
  forall array rest : list T, i < length array ->
  shuffle_from undefined randomInt i (array ++ rest)
  = shuffle_from undefined randomInt i array ++ rest.
Proof.
  intros Hrand. induction i as [| i IH]; intros array rest Hi; [reflexivity |].
  cbn [shuffle_from].
  assert (Hj : randomInt (S i + 1) < length array)
    by (pose proof (Hrand (S i + 1) ltac:(lia)); lia).
  rewrite swap_app by assumption.
  apply IH. rewrite swap_length by assumption. lia.
Qed.

(** The loop from [i] down draws with arguments up to [i + 1] only. *)
Lemma shuffle_from_ext (r r' : nat -> nat) (i : nat) :
  (forall max, max <= i + 1 -> r max = r' max) ->
  forall array : list T,
  shuffle_from undefined r i array = shuffle_from undefined r' i array.
Proof.
  induction i as [| i IH]; intros Hext array; [reflexivity |].
  cbn [shuffle_from]. rewrite (Hext (S i + 1)) by lia.
  apply IH. intros max Hmax. apply Hext. lia.
Qed.

(** Surjectivity: every arrangement of the elements of the array is the
    outcome of the shuffle for some sequence of draws within their ranges. *)
Theorem yatesShuffle_reaches (array target : list T) :
  target ≡ₚ array ->
  exists randomInt : nat -> nat,
    (forall max, 0 < max -> randomInt max < max) /\
    yatesShuffle undefined randomInt array = target.
Proof.
  revert array. induction target as [| x target IH] using rev_ind; intros array Hperm.
  - apply Permutation_nil_l in Hperm. subst array.
    exists (fun _ => 0). split; [intros max Hmax; exact Hmax | reflexivity].
  - assert (Hlen : length array = S (length target)).
    { rewrite <- (Permutation_length Hperm), length_app. cbn. lia. }
    assert (Hx : x ∈ array).
    { rewrite <- Hperm. apply elem_of_app. right. apply list_elem_of_singleton. reflexivity. }
    apply list_elem_of_lookup in Hx as [j Hj].
    pose proof (lookup_lt_Some _ _ _ Hj) as Hjlt.
    destruct (lookup_lt_is_Some_2 array (length target) ltac:(lia)) as [ai Hai].
    set (swapped := <[j := ai]> (<[length target := x]> array)).
    assert (Hswlen : length swapped = S (length target))
      by (unfold swapped; now rewrite !length_insert).
    assert (Hswlast : swapped !! length target = Some x).
    { unfold swapped. destruct (decide (j = length target)) as [-> | Hne].
      - rewrite list_lookup_insert_eq by (rewrite length_insert; lia). congruence.
      - rewrite list_lookup_insert_ne by exact Hne.
        apply list_lookup_insert_eq. lia. }
    assert (Hsplit : swapped = take (length target) swapped ++ [x]).
    { rewrite <- (take_drop (length target) swapped) at 1. f_equal.
      apply list_eq. intros [| k].
      - rewrite lookup_drop, Nat.add_0_r. exact Hswlast.
      - rewrite lookup_drop. cbn. apply lookup_ge_None. lia. }
    assert (Hswperm : swapped ≡ₚ array).
    { unfold swapped. rewrite <- (swap_insert array (length target) j ai x Hai Hj).
      apply swap_in_range; lia. }
    assert (Hprefix : target ≡ₚ take (length target) swapped).
    { apply (Permutation_app_inv_r [x]). rewrite <- Hsplit, Hswperm. exact Hperm. }
    destruct (IH _ Hprefix) as (r' & Hr' & Hshuffle).
    exists (fun max => if decide (max = S (length target)) then j else r' max). split.
    + intros max Hmax. destruct (decide (max = S (length target))); [lia | now apply Hr'].
    + unfold yatesShuffle. rewrite Hlen. cbn [Nat.sub]. rewrite Nat.sub_0_r.
      destruct (length target) as [| n] eqn:Hn.
      * cbn [shuffle_from]. destruct target; [| discriminate].
        destruct array as [| a [| ? ?]]; try discriminate.
        apply Permutation_singleton_l in Hperm. cbn. congruence.
      * cbn [shuffle_from]. rewrite decide_True by lia.
        rewrite (swap_insert array (S n) j ai x Hai Hj). fold swapped.
        rewrite Hsplit.
        rewrite (shuffle_from_ext _ r' n).
        -- rewrite shuffle_from_app; [| exact Hr' | rewrite length_take; lia].
           f_equal. unfold yatesShuffle in Hshuffle.
           rewrite length_take, Hswlen in Hshuffle.
           replace (S n `min` S (S n) - 1) with n in Hshuffle by lia. exact Hshuffle.
        -- intros max Hmax. rewrite decide_False by lia. reflexivity.
Qed.

End YatesShuffleReach.

Lemma yatesShuffle_reaches_witness :
  exists randomInt : nat -> nat,
    (forall max, (0 < max)%nat -> (randomInt max < max)%nat) /\
    Chapter13.yatesShuffle 0%nat randomInt [1; 2; 3]%nat = [3; 1; 2]%nat.
Proof.
  apply (yatesShuffle_reaches 0%nat [1; 2; 3]%nat [3; 1; 2]%nat).
  apply (Permutation_cons_append [1; 2]%nat 3%nat).
Defined.

Lemma modulo_negative_dividend_witness :
  ModularArithmetic.modulo (-7) 5 = Ok (Z.rem (-7) 5) /\ - 5 < Z.rem (-7) 5 <= 0.
Proof. apply (modulo_negative_dividend (-7) 5); lia. Defined.
